(** * Reduction primitive expressions of CINN (cinn/hlir/pe/reduction.cc)

    A shallow embedding of the reduction builders: the axis normaliser
    [GetRealAxes], the shape deriver [GetOutputShape], the expression builder
    [DoReduce] with its facade [Reduce] and the four named reductions, and the
    warp path [WarpReduce].  Vectors are lists, [int] and [size_t] are [Z]
    with their conversions written out, a failed [CHECK] or an access outside
    a vector is an [Error]. *)

From stdpp Require Import base numbers list sorting gmap strings pretty.
From Equations Require Import Equations.

Local Open Scope Z_scope.

(** ** Machine integers *)

Module MachineInt.

(** [int] is 32 bits, two's complement; [size_t] is 64 bits, unsigned. *)
Definition is_int (z : Z) : Prop := -2 ^ 31 ≤ z < 2 ^ 31.

(** Conversion of an integer value to [int]. *)
Definition to_int (z : Z) : Z := (z + 2 ^ 31) `mod` 2 ^ 32 - 2 ^ 31.

(** Conversion of an integer value to [size_t]. *)
Definition to_size_t (z : Z) : Z := z `mod` 2 ^ 64.

Global Instance is_int_dec z : Decision (is_int z).
Proof. unfold is_int. apply _. Defined.

End MachineInt.
Import MachineInt.

(** ** Failures and results *)

(** The ways a construction aborts: the failed [CHECK]s, named as the design
    names them, and an access outside a vector. *)
Inductive failure : Type :=
| InvalidRank
| InvalidAxis
| ShapeMismatch
| NonConstantWarpDimension
| OutOfRange.

Inductive result (A : Type) : Type :=
| OK (a : A)
| Error (e : failure).
Arguments OK {A} a.
Arguments Error {A} e.

Global Instance result_ret : MRet result := λ A a, OK a.
Global Instance result_bind : MBind result := λ A B k r,
  match r with
  | OK a => k a
  | Error e => Error e
  end.

(** ** Loops and vectors *)

(** [for (i = i0; ...; ++i) s = body(i, s)], run [n] times. *)
Fixpoint for_upto {S} (n : nat) (i : nat) (body : nat → S → result S) (s : S)
  : result S :=
  match n with
  | O => OK s
  | Datatypes.S n' => s' ← body i s; for_upto n' (Datatypes.S i) body s'
  end.

(** [for (int i = lo; i < hi; ++i) s = body(i, s)]. *)
Definition for_int {S} (lo hi : Z) (body : Z → S → result S) (s : S)
  : result S :=
  for_upto (Z.to_nat (hi - lo)) 0 (λ j, body (lo + Z.of_nat j)) s.

(** [v[i]]; an index outside the vector has no defined behaviour. *)
Definition vec_at {A} (v : list A) (i : nat) : result A :=
  match v !! i with
  | Some x => OK x
  | None => Error OutOfRange
  end.

(** [v[i]] for an [int] index [i]: the index is converted to [size_t], which
    takes a negative one beyond the size of any vector. *)
Definition vec_at_int {A} (v : list A) (i : Z) : result A :=
  if i <? 0 then Error OutOfRange else vec_at v (Z.to_nat i).

(** [std::vector<T>(v.begin(), v.begin() + n)]. *)
Definition vec_prefix {A} (v : list A) (n : Z) : result (list A) :=
  if bool_decide (0 ≤ n ≤ Z.of_nat (length v)) then OK (take (Z.to_nat n) v)
  else Error OutOfRange.

(** [v.resize(std::unique(v.begin(), v.end()) - v.begin())]: every run of
    equal neighbours is reduced to its first element. *)
Fixpoint unique (v : list Z) : list Z :=
  match v with
  | [] => []
  | x :: t =>
      match t with
      | [] => [x]
      | y :: _ => if x =? y then unique t else x :: unique t
      end
  end.

(** [std::sort(v.begin(), v.end())]. *)
Definition sort (v : list Z) : list Z := merge_sort Z.le v.

(** ** Axis normaliser *)

(** The body of [for (auto axis : axes)].  [real_axes] is the vector behind
    the out-parameter, which the facade passes empty; [axis += ndim] is taken
    in [int]. *)
Fixpoint push_axes (ndim : Z) (axes : list Z) (real_axes : list Z)
  : result (list Z) :=
  match axes with
  | [] => OK real_axes
  | axis :: rest =>
      let axis := if axis <? 0 then to_int (axis + ndim) else axis in
      if negb (axis <=? ndim) then Error InvalidAxis
      else if negb (axis >=? 0) then Error InvalidAxis
      else push_axes ndim rest (real_axes ++ [axis])
  end.

Definition GetRealAxes (ndim : Z) (axes : list Z) (real_axes : list Z)
  : result (list Z) :=
  match axes with
  | [] => for_int 0 ndim (λ i real_axes, OK (real_axes ++ [i])) real_axes
  | _ =>
      real_axes ← push_axes ndim axes real_axes;
      OK (sort (unique real_axes))
  end.

(** The index a raw axis denotes under Python's rule for negative indices. *)
Definition python_index (ndim a : Z) : Z := if a <? 0 then a + ndim else a.


(** ** Expressions and tensors *)

(** Element types ([cinn::common::Type]). *)
Inductive Type_ : Type :=
| Void
| Int (bits : N)
| UInt (bits : N)
| Float (bits : N).

Global Instance Type__eq_dec : EqDecision Type_.
Proof. solve_decision. Defined.

(** Symbolic expressions ([ir::Expr]), as far as the builders construct and
    inspect them.  [Undefined] is the default-constructed [Expr()];
    [Const t v] is the constant [v] of type [t], so that [Expr(32)] is
    [Const (Int 32) 32]; [Tensor_ name shape] is a tensor used as an
    expression. *)
#[warnings="-register-all"]
Inductive Expr : Type :=
| Undefined
| Const (t : Type_) (v : Z)
| Var_ (name : string) (upper_bound : Expr)
| Add (a b : Expr)
| Mul (a b : Expr)
| Tensor_ (name : string) (shape : list Expr)
| Load (tensor : Expr) (indices : list Expr)
| Call (name : string) (args : list Expr).

(** [Expr::defined()]. *)
Definition defined (e : Expr) : bool :=
  match e with
  | Undefined => false
  | _ => true
  end.

(** [ir::Var], built by [Var(upper_bound, name)]. *)
Record Var : Type := MkVar { var_upper_bound : Expr; var_name : string }.

(** A [Var] pushed into a vector of [Expr]. *)
Definition Var_expr (v : Var) : Expr := Var_ (var_name v) (var_upper_bound v).

(** [ir::Tensor]: the name, the shape and, for a tensor declared by
    [Compute], the function that gives the element at an index tuple. *)
Record Tensor : Type := MkTensor {
  tensor_name : string;
  tensor_shape : list Expr;
  tensor_fn : option (list Expr → result Expr)
}.

(** A [Tensor] passed where an [Expr] is expected. *)
Definition Tensor_expr (t : Tensor) : Expr :=
  Tensor_ (tensor_name t) (tensor_shape t).

(** Modelled from the spec: [common::make_one] is not among the sources; it
    is the constant size-1 expression. *)
Definition make_one : Expr := Const (Int 32) 1.

(** Modelled from the spec: [common::make_const] is not among the sources; it
    is the constant of the given value in the given element type. *)
Definition make_const (t : Type_) (v : Z) : Expr := Const t v.

(** Modelled from the spec: [Expr::as_int32] is not among the sources; a
    dimension size that is a compile-time integer constant gives its value,
    any other is the usage error [NonConstantWarpDimension]. *)
Definition as_int32 (e : Expr) : result Z :=
  match e with
  | Const (Int 32) v => OK v
  | _ => Error NonConstantWarpDimension
  end.

(** Modelled from the spec: [Tensor::operator()] is not among the sources;
    the index list indexes the tensor into a scalar element expression. *)
Definition Tensor_call (t : Tensor) (indices : list Expr) : Expr :=
  Load (Tensor_expr t) indices.

(** Modelled from the spec: [lang::CallExtern] is not among the sources; it
    emits a call to the externally declared function of the given name. *)
Definition CallExtern (name : string) (args : list Expr) : Expr :=
  Call name args.

(** Modelled from the spec: [lang::Compute] is not among the sources; it
    declares the tensor as a symbolic compute over the given shape, using the
    per-index function, tagged with the given name. *)
Definition Compute (domain : list Expr) (fn : list Expr → result Expr)
    (name : string) : Tensor :=
  {| tensor_name := name; tensor_shape := domain; tensor_fn := Some fn |}.

(** Modelled from the spec: the terms of [common::IndiceToAbsOffset], which is
    not among the sources: index [i] scaled by the sizes of all the
    dimensions after [i] (the trailing dimensions are the contiguous ones). *)
Fixpoint offset_terms (shape indices : list Expr) : list Expr :=
  match shape, indices with
  | _ :: shape', i :: indices' =>
      foldl Mul i shape' :: offset_terms shape' indices'
  | _, _ => []
  end.

(** Modelled from the spec: [common::IndiceToAbsOffset] is not among the
    sources; it is the flattened absolute element offset of an index tuple
    into the tensor's storage, the sum of the scaled indices. *)
Definition IndiceToAbsOffset (shape indices : list Expr) : Expr :=
  match offset_terms shape indices with
  | [] => Undefined
  | t :: ts => foldl Add t ts
  end.

(** The integer an index or size expression denotes once its variables have
    values; only arithmetic over constants and variables denotes one. *)
Fixpoint eval (env : string → Z) (e : Expr) : option Z :=
  match e with
  | Const _ v => Some v
  | Var_ name _ => Some (env name)
  | Add a b => x ← eval env a; y ← eval env b; Some (x + y)
  | Mul a b => x ← eval env a; y ← eval env b; Some (x * y)
  | _ => None
  end.

(** What the builders take from the rest of the compiler without fixing it:
    the process-wide unique-name generator with its state, the element type
    of a tensor ([A->type()]), and the four accumulation functions of
    [cinn/lang/builtin.h]. *)
Class Collaborators : Type := {
  NameGen : Type;
  UniqName : string → NameGen → string * NameGen;
  Tensor_type : Tensor → Type_;
  lang_ReduceSum : Expr → list Var → Expr → Expr;
  lang_ReduceMul : Expr → list Var → Expr → Expr;
  lang_ReduceMax : Expr → list Var → Expr → Expr;
  lang_ReduceMin : Expr → list Var → Expr → Expr
}.

(** ** Output shape deriver *)

(** [std::find(v.begin(), v.end(), i) != v.end()] for a [size_t] index [i]:
    each [int] element is converted to [size_t] for the comparison. *)
Definition contains (v : list Z) (i : nat) : bool :=
  existsb (λ a, to_size_t a =? Z.of_nat i) v.

Definition GetOutputShape (real_axes : list Z) (output_shape : list Expr)
    (tensor : Tensor) (keep_dims : bool) : result (list Expr) :=
  let ndim := length (tensor_shape tensor) in
  output_shape ←
    (if keep_dims then
       for_upto ndim 0 (λ i output_shape,
         if contains real_axes i then OK (output_shape ++ [make_one])
         else
           size ← vec_at (tensor_shape tensor) i;
           OK (output_shape ++ [size])) output_shape
     else
       for_upto ndim 0 (λ i output_shape,
         if negb (contains real_axes i) then
           size ← vec_at (tensor_shape tensor) i;
           OK (output_shape ++ [size])
         else OK output_shape) output_shape);
  match output_shape with
  | [] => OK (output_shape ++ [make_one])
  | _ => OK output_shape
  end.

(** ** Reduction expression builder, facade and named reductions *)

Section Builders.
Context `{Collaborators}.

(** A construction step that may draw names from the generator. *)
Definition M (A : Type) : Type := NameGen → result (A * NameGen).

(** [for (auto& axis : real_axes)]: one bound variable per axis, named by
    the generator, ranging over the tensor's size along the axis. *)
Fixpoint make_reduce_axes (tensor : Tensor) (real_axes : list Z)
    (reduce_axes : list Var) : M (list Var) :=
  λ names,
  match real_axes with
  | [] => OK (reduce_axes, names)
  | axis :: rest =>
      let '(name, names) := UniqName "kk" names in
      bound ← vec_at_int (tensor_shape tensor) axis;
      make_reduce_axes tensor rest (reduce_axes ++ [MkVar bound name]) names
  end.

(** The body of the loop over the input dimensions in the [compute] lambda;
    the state is [(eval_indice, indice_cnt, reduce_cnt)].  The cursors count
    loop iterations, so they are kept as naturals. *)
Definition eval_indice_body (real_axes squeeze_axes : list Z)
    (indices : list Expr) (reduce_axes : list Var) (i : nat)
    (st : list Expr * nat * nat) : result (list Expr * nat * nat) :=
  let '(eval_indice, indice_cnt, reduce_cnt) := st in
  let squeeze_i := contains squeeze_axes i in
  if contains real_axes i then
    v ← vec_at reduce_axes reduce_cnt;
    OK (eval_indice ++ [Var_expr v],
        (indice_cnt + (if negb squeeze_i then 1 else 0))%nat,
        S reduce_cnt)
  else
    e ← vec_at indices indice_cnt;
    OK (eval_indice ++ [e], S indice_cnt, reduce_cnt).

(** The loop of the [compute] lambda, with the final cursors. *)
Definition eval_indice_loop (tensor : Tensor) (real_axes squeeze_axes : list Z)
    (reduce_axes : list Var) (indices : list Expr)
  : result (list Expr * nat * nat) :=
  for_upto (length (tensor_shape tensor)) 0
    (eval_indice_body real_axes squeeze_axes indices reduce_axes)
    ([], 0%nat, 0%nat).

(** The [compute] lambda of [DoReduce]. *)
Definition DoReduce_compute (tensor : Tensor)
    (fn : Expr → list Var → Expr → Expr) (real_axes squeeze_axes : list Z)
    (initial : Expr) (reduce_axes : list Var) (indices : list Expr)
  : result Expr :=
  '(eval_indice, _, _) ←
    eval_indice_loop tensor real_axes squeeze_axes reduce_axes indices;
  OK (fn (Tensor_call tensor eval_indice) reduce_axes initial).

Definition DoReduce (tensor : Tensor) (fn : Expr → list Var → Expr → Expr)
    (output_shape : list Expr) (real_axes squeeze_axes : list Z)
    (initial : Expr) (output_name : string) : M Tensor :=
  λ names,
  '(reduce_axes, names) ← make_reduce_axes tensor real_axes [] names;
  let compute :=
    DoReduce_compute tensor fn real_axes squeeze_axes initial reduce_axes in
  let C := Compute output_shape compute output_name in
  OK (C, names).

Definition Reduce (tensor : Tensor) (axes : list Z)
    (fn : Expr → list Var → Expr → Expr) (keep_dims : bool)
    (initial : Expr) (output_name : string) : M Tensor :=
  λ names,
  let ndim := Z.of_nat (length (tensor_shape tensor)) in
  if negb (ndim >? 0) then Error InvalidRank
  else
    real_axes ← GetRealAxes (to_int ndim) axes [];
    output_shapes ← GetOutputShape real_axes [] tensor keep_dims;
    DoReduce tensor fn output_shapes real_axes
      (if keep_dims then [] else real_axes) initial output_name names.

Definition ReduceSum (A : Tensor) (axes : list Z) (keep_dims : bool)
    (initial : Expr) (output_name : string) : M Tensor :=
  let initial :=
    if negb (defined initial) then make_const (Tensor_type A) 0
    else initial in
  Reduce A axes lang_ReduceSum keep_dims initial output_name.

Definition ReduceProd (A : Tensor) (axes : list Z) (keep_dims : bool)
    (initial : Expr) (output_name : string) : M Tensor :=
  let initial :=
    if negb (defined initial) then make_const (Tensor_type A) 1
    else initial in
  Reduce A axes lang_ReduceMul keep_dims initial output_name.

Definition ReduceMax (A : Tensor) (axes : list Z) (keep_dims : bool)
    (initial : Expr) (output_name : string) : M Tensor :=
  Reduce A axes lang_ReduceMax keep_dims Undefined output_name.

Definition ReduceMin (A : Tensor) (axes : list Z) (keep_dims : bool)
    (initial : Expr) (output_name : string) : M Tensor :=
  Reduce A axes lang_ReduceMin keep_dims Undefined output_name.

End Builders.

(** ** Warp reduction builder *)

(** Modelled from the spec: [operator*] on an [Expr] and an [int32_t]
    ([cinn/ir/ir_operators.h]) is not among the sources; it is the product
    expression of the two, the integer taken as a constant. *)
Definition Expr_mul_int (a : Expr) (b : Z) : Expr := Mul a (Const (Int 32) b).

(** A value together with the fact that the scrutinee equals it. *)
Definition inspect {A} (a : A) : {b | a = b} := exist _ a eq_refl.

(** [for (int idx = ...; idx >= bound; --idx) lane = lane * shape[idx].as_int32()],
    where [bound] is a [size_t], so that [idx] is converted to [size_t] for
    the comparison. *)
Equations? lane_loop (shape : list Expr) (bound : Z) (idx : Z) (lane : Expr)
  : result Expr by wf (Z.to_nat (idx + 1)) lt :=
  lane_loop shape bound idx lane with to_size_t idx >=? bound := {
    | false => OK lane
    | true with inspect (vec_at_int shape idx ≫= as_int32) := {
        | exist _ (Error e) _ => Error e
        | exist _ (OK size) Hsize =>
            lane_loop shape bound (idx - 1) (Expr_mul_int lane size) } }.
Proof.
  unfold vec_at_int in Hsize.
  destruct (idx <? 0) eqn:Hidx; [done | lia].
Qed.

Section Warp.
Context `{Collaborators}.

(** The lambda that computes an element of [tmp_out]. *)
Definition WarpReduce_tmp_compute (A : Tensor) (last_reduce_dim_num : Z)
    (reduce_type : string) (lane : Expr) (indexs : list Expr)
  : result Expr :=
  tmp_indexs ← vec_prefix indexs (Z.of_nat (length indexs) - 1);
  tmp_indexs ←
    for_int 0 last_reduce_dim_num
      (λ _ tmp_indexs, OK (tmp_indexs ++ [Const (Int 32) 0])) tmp_indexs;
  if negb (length (tensor_shape A) =? length tmp_indexs)%nat
  then Error ShapeMismatch
  else
    let offset := IndiceToAbsOffset (tensor_shape A) tmp_indexs in
    OK (CallExtern reduce_type [Tensor_expr A; offset; lane]).

(** The lambda that computes an element of [out]. *)
Definition WarpReduce_out_compute (tmp_out : Tensor) (indexs : list Expr)
  : result Expr :=
  let tmp_indexs := indexs ++ [Const (Int 32) 0] in
  OK (Tensor_call tmp_out tmp_indexs).

Definition WarpReduce (A : Tensor) (last_reduce_dim_num : Z)
    (reduce_type : string) (output_name : string) : M (list Tensor) :=
  λ names,
  let size := Z.of_nat (length (tensor_shape A)) in
  lane ←
    lane_loop (tensor_shape A) (to_size_t (size - last_reduce_dim_num))
      (to_int (to_size_t (size - 1))) (Const (Int 32) 1);
  tmp_shape ← vec_prefix (tensor_shape A) (size - last_reduce_dim_num);
  let tmp_shape := tmp_shape ++ [Const (Int 32) 32] in
  let '(tmp_name, names) :=
    UniqName (output_name +:+ "_" +:+ reduce_type) names in
  let tmp_out :=
    Compute tmp_shape
      (WarpReduce_tmp_compute A last_reduce_dim_num reduce_type lane)
      tmp_name in
  out_shape ← vec_prefix (tensor_shape A) (size - last_reduce_dim_num);
  let '(out_name, names) := UniqName output_name names in
  let out := Compute out_shape (WarpReduce_out_compute tmp_out) out_name in
  OK ([out; tmp_out], names).

Definition WarpReduceMax (A : Tensor) (last_reduce_dim_num : Z)
    (output_name : string) : M (list Tensor) :=
  WarpReduce A last_reduce_dim_num "cinn_warp_reduce_max" output_name.

Definition WarpReduceSum (A : Tensor) (last_reduce_dim_num : Z)
    (output_name : string) : M (list Tensor) :=
  WarpReduce A last_reduce_dim_num "cinn_warp_reduce_sum" output_name.

Definition WarpReduceAvg (A : Tensor) (last_reduce_dim_num : Z)
    (output_name : string) : M (list Tensor) :=
  WarpReduce A last_reduce_dim_num "cinn_warp_reduce_avg" output_name.

End Warp.

(** ** A concrete instance of the collaborators, for running the builders *)

(** Names are the prefix followed by a counter; the accumulation functions
    build a call that records their three arguments. *)
Definition fold_call (op : string) (e : Expr) (reduce_axis : list Var)
    (initial : Expr) : Expr :=
  Call op (initial :: e :: (Var_expr <$> reduce_axis)).

Definition counter_collaborators : Collaborators := {|
  NameGen := nat;
  UniqName := λ prefix n, (prefix +:+ "_" +:+ pretty n, S n);
  Tensor_type := λ _, Float 32;
  lang_ReduceSum := fold_call "reduce_sum";
  lang_ReduceMul := fold_call "reduce_mul";
  lang_ReduceMax := fold_call "reduce_max";
  lang_ReduceMin := fold_call "reduce_min"
|}.

(** An input tensor of the given constant sizes. *)
Definition placeholder (name : string) (sizes : list Z) : Tensor :=
  {| tensor_name := name;
     tensor_shape := Const (Int 32) <$> sizes;
     tensor_fn := None |}.

(** ** The design's wording of the derived shape *)

(** Dimension [i] is one of the reduced axes. *)
Definition reduced (real_axes : list Z) (i : nat) : Prop :=
  Z.of_nat i ∈ real_axes.

Global Instance reduced_dec real_axes i : Decision (reduced real_axes i).
Proof. unfold reduced. apply _. Defined.

(** One size entry per input dimension: the constant 1 for a reduced
    dimension, the input's size expression for any other. *)
Definition keep_dims_shape (real_axes : list Z) (shape : list Expr)
  : list Expr :=
  imap (λ i size, if decide (reduced real_axes i) then make_one else size)
    shape.

(** The sizes of the dimensions that are not reduced, in their order. *)
Definition non_reduced_sizes (real_axes : list Z) (shape : list Expr)
  : list Expr :=
  snd <$> filter (λ p, ¬ reduced real_axes p.1) (imap pair shape).

(** ** The design's wording of the index reconstruction *)

(** Input dimension [i], met with the cursors [(indice_cnt, reduce_cnt)],
    fills its slot of the input index tuple and moves the cursors: a reduced
    dimension takes the next reduction variable, and moves the cursor into
    the output index tuple only if it is not squeezed; any other dimension
    takes the next entry of the output index tuple. *)
Inductive fill_slot (real_axes squeeze_axes : list Z) (indices : list Expr)
    (reduce_axes : list Var) (i : nat)
  : nat * nat → Expr → nat * nat → Prop :=
| fill_reduced indice_cnt reduce_cnt v :
    reduced real_axes i →
    reduce_axes !! reduce_cnt = Some v →
    fill_slot real_axes squeeze_axes indices reduce_axes i
      (indice_cnt, reduce_cnt)
      (Var_expr v)
      (if decide (reduced squeeze_axes i) then indice_cnt else S indice_cnt,
       S reduce_cnt)
| fill_passed indice_cnt reduce_cnt e :
    ¬ reduced real_axes i →
    indices !! indice_cnt = Some e →
    fill_slot real_axes squeeze_axes indices reduce_axes i
      (indice_cnt, reduce_cnt) e (S indice_cnt, reduce_cnt).

(** The input dimensions [i, i + 1, ..., n - 1], in order. *)
Inductive fill_slots (real_axes squeeze_axes : list Z) (indices : list Expr)
    (reduce_axes : list Var) (n : nat)
  : nat → nat * nat → list Expr → nat * nat → Prop :=
| fill_done c : fill_slots real_axes squeeze_axes indices reduce_axes n n c [] c
| fill_next i c e c' es c'' :
    (i < n)%nat →
    fill_slot real_axes squeeze_axes indices reduce_axes i c e c' →
    fill_slots real_axes squeeze_axes indices reduce_axes n (S i) c' es c'' →
    fill_slots real_axes squeeze_axes indices reduce_axes n i c (e :: es) c''.

(** ** The design's wording of the lane count *)

(** The product of a list of sizes. *)
Definition product (sizes : list Z) : Z := foldr Z.mul 1 sizes.

(** The expression denotes an integer under [env]. *)
Definition denotes (env : string → Z) (e : Expr) : Prop :=
  is_Some (eval env e).

(** An expression that, if it denotes an integer, denotes a multiple of [m]. *)
Definition multiple_of (env : string → Z) (m : Z) (e : Expr) : Prop :=
  ∀ z, eval env e = Some z → (m | z).

(** The lane expression the warp builder ends with when the trailing
    dimensions have the constant sizes [sizes]: the running product, one
    factor per dimension, from the last dimension down. *)
Definition lane_product (lane : Expr) (sizes : list Z) : Expr :=
  foldl Expr_mul_int lane (reverse sizes).

(** ** The axes and the positions of a reduction, in closed form *)

(** The axes a reduction request denotes: every dimension for the empty list,
    the adjusted axes otherwise. *)
Definition reduction_axes (ndim : Z) (axes : list Z) : list Z :=
  match axes with
  | [] => seqZ 0 ndim
  | _ => python_index ndim <$> axes
  end.

(** A shape, or the single size 1 in place of the empty shape. *)
Definition at_least_rank_1 (shape : list Expr) : list Expr :=
  match shape with
  | [] => [make_one]
  | _ => shape
  end.

(** How many of the dimensions [i, ..., j - 1] are reduced. *)
Definition reduced_between (real_axes : list Z) (i j : nat) : nat :=
  length (filter (reduced real_axes) (seq i (j - i))).

(** How many of the dimensions [i, ..., j - 1] have a position in the output
    index tuple: all but those that are both reduced and squeezed. *)
Definition passed_between (real_axes squeeze_axes : list Z) (i j : nat) : nat :=
  length (filter (λ d, ¬ (reduced real_axes d ∧ reduced squeeze_axes d))
            (seq i (j - i))).

(** ** The calls a warp wrapper emits *)

(** Run on [A] for the last [k] dimensions, the wrapper returns [out] over
    the leading sizes and [tmp_out] over the leading sizes and 32, and every
    element of [tmp_out] is a call of [intrinsic] on the tensor, the offset of
    the leading indices and [lane]. *)
Definition emits_calls_to `{Collaborators}
    (wrapper : Tensor → Z → string → M (list Tensor)) (intrinsic : string)
    (A : Tensor) (k : Z) (output_name : string) (names : NameGen)
    (lane : Expr) : Prop :=
  let shape := tensor_shape A in
  let leading_shape := take (length shape - Z.to_nat k) shape in
  ∃ out tmp_out names' tmp_fn,
    wrapper A k output_name names = OK ([out; tmp_out], names') ∧
    tensor_shape out = leading_shape ∧
    tensor_shape tmp_out = leading_shape ++ [Const (Int 32) 32] ∧
    tensor_fn tmp_out = Some tmp_fn ∧
    ∀ leading x,
      length leading = length leading_shape →
      tmp_fn (leading ++ [x]) =
        OK (Call intrinsic
              [Tensor_expr A;
               IndiceToAbsOffset shape
                 (leading ++ replicate (Z.to_nat k) (Const (Int 32) 0));
               lane]).

(** * Properties *)

(** ** Machine integers, results and loops *)

Lemma to_int_id z : is_int z → to_int z = z.
Proof.
  unfold is_int, to_int. intros Hz.
  rewrite Z.mod_small by lia. lia.
Qed.

Lemma to_size_t_id z : 0 ≤ z < 2 ^ 64 → to_size_t z = z.
Proof. unfold to_size_t. intros Hz. by rewrite Z.mod_small. Qed.

Lemma to_size_t_neg z : is_int z → z < 0 → 2 ^ 63 ≤ to_size_t z.
Proof.
  unfold is_int, to_size_t. intros Hz Hneg.
  replace z with (z + 2 ^ 64 + (-1) * 2 ^ 64) by lia.
  rewrite Z.mod_add by lia. rewrite Z.mod_small by lia. lia.
Qed.

Lemma bind_OK_inv {A B} (r : result A) (k : A → result B) b :
  r ≫= k = OK b → ∃ a, r = OK a ∧ k a = OK b.
Proof. destruct r as [a|e]; simpl; [eauto | done]. Qed.

Lemma vec_at_lookup {A} (v : list A) i x : v !! i = Some x → vec_at v i = OK x.
Proof. unfold vec_at. by intros ->. Qed.

(** A loop whose body appends to its state collects what it appends. *)
Lemma for_upto_collect {A} (body : nat → list A → result (list A))
    (g : nat → list A) n i s :
  (∀ j s, (i ≤ j < i + n)%nat → body j s = OK (s ++ g j)) →
  for_upto n i body s = OK (s ++ concat (g <$> seq i n)).
Proof.
  revert i s. induction n as [|n IH]; intros i s Hbody; simpl.
  - by rewrite app_nil_r.
  - rewrite Hbody by lia. simpl.
    rewrite IH by (intros; apply Hbody; lia).
    by rewrite <- app_assoc.
Qed.

Lemma concat_singletons {A B} (f : A → B) (l : list A) :
  concat ((λ x, [f x]) <$> l) = f <$> l.
Proof. induction l as [|x l IH]; csimpl; [done | by f_equal]. Qed.

(** ** Axis normaliser *)

Section GetRealAxes_facts.
Variable ndim : Z.

Lemma GetRealAxes_empty real_axes :
  GetRealAxes ndim [] real_axes = OK (real_axes ++ seqZ 0 ndim).
Proof.
  unfold GetRealAxes, for_int.
  rewrite (for_upto_collect _ (λ j, [0 + Z.of_nat j])) by done.
  rewrite concat_singletons. unfold seqZ.
  rewrite Z.sub_0_r. do 2 f_equal.
  apply list_fmap_ext. intros; lia.
Qed.

Lemma push_axes_failure axes real_axes e :
  push_axes ndim axes real_axes = Error e → e = InvalidAxis.
Proof.
  revert real_axes. induction axes as [|a axes IH]; intros real_axes; simpl.
  - done.
  - repeat case_match; try congruence; eauto.
Qed.

Hypothesis ndim_pos : 0 < ndim.
Hypothesis ndim_int : is_int ndim.

(** On a positive rank the adjustment of a negative [int] does not wrap. *)
Lemma adjust_no_wrap a :
  is_int a →
  (if a <? 0 then to_int (a + ndim) else a) = python_index ndim a.
Proof.
  intros Ha. unfold python_index. case_match; [|done].
  apply to_int_id. unfold is_int in *. lia.
Qed.

Lemma push_axes_valid axes real_axes :
  Forall is_int axes →
  Forall (λ a, 0 ≤ python_index ndim a ≤ ndim) axes →
  push_axes ndim axes real_axes = OK (real_axes ++ (python_index ndim <$> axes)).
Proof.
  revert real_axes. induction axes as [|a axes IH]; intros real_axes Hint Hok.
  - simpl. by rewrite app_nil_r.
  - inversion Hint; inversion Hok; subst. simpl.
    rewrite adjust_no_wrap by done.
    destruct (Z.leb_spec (python_index ndim a) ndim); [|lia].
    destruct (Z.geb_spec (python_index ndim a) 0); [|lia].
    simpl. rewrite IH by done. by rewrite <- app_assoc.
Qed.

Lemma push_axes_invalid axes real_axes :
  Forall is_int axes →
  Exists (λ a, python_index ndim a < 0 ∨ ndim < python_index ndim a) axes →
  push_axes ndim axes real_axes = Error InvalidAxis.
Proof.
  revert real_axes. induction axes as [|a axes IH]; intros real_axes Hint Hbad.
  - inversion Hbad.
  - inversion Hint; subst. simpl. rewrite adjust_no_wrap by done.
    destruct (Z.leb_spec (python_index ndim a) ndim); [|done].
    destruct (Z.geb_spec (python_index ndim a) 0); [|done].
    simpl. apply IH; [done|].
    inversion Hbad; subst; [lia | done].
Qed.

End GetRealAxes_facts.

(** [unique] keeps an element of every value. *)
Lemma elem_of_unique x (v : list Z) : x ∈ unique v ↔ x ∈ v.
Proof.
  induction v as [|a [|b t] IH]; [done..|].
  change (unique (a :: b :: t))
    with (if a =? b then unique (b :: t) else a :: unique (b :: t)).
  destruct (Z.eqb_spec a b) as [->|Hne].
  - rewrite IH, !elem_of_cons. tauto.
  - rewrite !elem_of_cons, IH, elem_of_cons. tauto.
Qed.

(** X1: what the normaliser does deliver on a valid non-empty axis list: the
    adjusted axes, in ascending order. *)
Lemma GetRealAxes_sorted_same_elements ndim axes :
  0 < ndim → is_int ndim → Forall is_int axes → axes ≠ [] →
  Forall (λ a, 0 ≤ python_index ndim a < ndim) axes →
  ∃ real_axes,
    GetRealAxes ndim axes [] = OK real_axes ∧
    Sorted Z.le real_axes ∧
    ∀ x, x ∈ real_axes ↔ x ∈ python_index ndim <$> axes.
Proof.
  intros Hpos Hndim Hint Hne Hrange.
  exists (sort (unique (python_index ndim <$> axes))). split_and!.
  - destruct axes as [|a axes]; [done|].
    unfold GetRealAxes.
    rewrite push_axes_valid; [done..|].
    eapply Forall_impl; [exact Hrange|]. simpl. lia.
  - apply (Sorted_merge_sort Z.le).
  - intros x. unfold sort. rewrite merge_sort_Permutation.
    apply elem_of_unique.
Qed.

(** C1 (fails on the code): the normaliser removes duplicates with
    [std::unique] before it sorts, so only duplicates that are neighbours in
    the raw list are removed.  For [ndim = 4] and [axes = [1; -1; 1]], whose
    adjusted axes [1; 3; 1] all lie in [0, 4), it returns [[1; 1; 3]], which
    repeats axis 1. *)
Theorem GetRealAxes_keeps_separated_duplicates :
  Forall (λ a, 0 ≤ python_index 4 a < 4) [1; -1; 1] ∧
  GetRealAxes 4 [1; -1; 1] [] = OK [1; 1; 3] ∧
  ¬ NoDup [1; 1; 3].
Proof.
  split_and!.
  - repeat constructor; vm_compute; congruence.
  - vm_compute. reflexivity.
  - intros Hnd. apply NoDup_cons in Hnd as [Hnotin _].
    apply Hnotin. left.
Qed.

(** The example of the design: neighbouring duplicates are removed. *)
Example GetRealAxes_doc_example : GetRealAxes 4 [-1; -1; 1] [] = OK [1; 3].
Proof. vm_compute. reflexivity. Qed.

(** C9: for every [ndim > 0], the normaliser run on the empty axis list
    returns exactly the list [0, 1, ..., ndim - 1]: it has [ndim] entries and
    its entry at position [k] is [k]. *)
Theorem GetRealAxes_empty_all_dimensions ndim :
  0 < ndim →
  ∃ real_axes,
    GetRealAxes ndim [] [] = OK real_axes ∧
    real_axes = seqZ 0 ndim ∧
    Z.of_nat (length real_axes) = ndim ∧
    ∀ k, 0 ≤ k < ndim → real_axes !! Z.to_nat k = Some k.
Proof.
  intros Hpos. exists (seqZ 0 ndim). split_and!.
  - by rewrite GetRealAxes_empty.
  - done.
  - rewrite length_seqZ. lia.
  - intros k Hk. rewrite lookup_seqZ. split; lia.
Qed.

Lemma GetRealAxes_empty_all_dimensions_witness :
  ∃ real_axes,
    GetRealAxes 3 [] [] = OK real_axes ∧
    real_axes = seqZ 0 3 ∧
    Z.of_nat (length real_axes) = 3 ∧
    ∀ k, 0 ≤ k < 3 → real_axes !! Z.to_nat k = Some k.
Proof. apply (GetRealAxes_empty_all_dimensions 3). lia. Defined.

(** C4: for every [ndim > 0] and every non-empty list of raw [int] axes, the
    normaliser fails exactly when some axis, after the adjustment of negative
    values, is below 0 or strictly above [ndim]; the failure is [InvalidAxis],
    and an adjusted axis equal to [ndim] passes. *)
Theorem GetRealAxes_InvalidAxis_iff ndim axes :
  0 < ndim → is_int ndim → Forall is_int axes → axes ≠ [] →
  (GetRealAxes ndim axes [] = Error InvalidAxis ↔
   Exists (λ a, python_index ndim a < 0 ∨ ndim < python_index ndim a) axes) ∧
  (∀ e, GetRealAxes ndim axes [] = Error e → e = InvalidAxis) ∧
  (Forall (λ a, 0 ≤ python_index ndim a ≤ ndim) axes →
   ∃ real_axes, GetRealAxes ndim axes [] = OK real_axes).
Proof.
  intros Hpos Hndim Hint Hne.
  destruct axes as [|a0 axes0]; [done|].
  set (axes := a0 :: axes0) in *.
  assert (Hget : GetRealAxes ndim axes [] =
                 (real_axes ← push_axes ndim axes []; OK (sort (unique real_axes))))
    by done.
  rewrite Hget. clear Hget.
  assert (Hvalid : Forall (λ a, 0 ≤ python_index ndim a ≤ ndim) axes →
            ∃ real_axes, push_axes ndim axes [] ≫=
              (λ real_axes, OK (sort (unique real_axes))) = OK real_axes).
  { intros Hok. rewrite push_axes_valid by done. simpl. eauto. }
  split_and!; [split| |exact Hvalid].
  - intros Herr.
    destruct (decide (Exists (λ a, python_index ndim a < 0 ∨
                                   ndim < python_index ndim a) axes))
      as [|Hno]; [done|].
    apply not_Exists_Forall in Hno; [|intros x; simpl; apply _].
    destruct Hvalid as [r Hr]; [|congruence].
    eapply Forall_impl; [exact Hno|]. simpl. lia.
  - intros Hbad. by rewrite push_axes_invalid.
  - intros e. destruct (push_axes ndim axes []) as [r|e'] eqn:Hpush; simpl.
    + done.
    + intros [= <-]. by eapply push_axes_failure.
Qed.

Lemma GetRealAxes_InvalidAxis_iff_witness :
  GetRealAxes 3 [5] [] = Error InvalidAxis ∧
  GetRealAxes 3 [-10] [] = Error InvalidAxis ∧
  ∃ real_axes, GetRealAxes 3 [3] [] = OK real_axes.
Proof.
  split_and!.
  - apply (GetRealAxes_InvalidAxis_iff 3 [5]);
      [lia | vm_compute; intuition congruence
      | repeat constructor; vm_compute; congruence | done |].
    constructor. vm_compute. right. reflexivity.
  - apply (GetRealAxes_InvalidAxis_iff 3 [-10]);
      [lia | vm_compute; intuition congruence
      | repeat constructor; vm_compute; congruence | done |].
    constructor. vm_compute. left. reflexivity.
  - apply (GetRealAxes_InvalidAxis_iff 3 [3]);
      [lia | vm_compute; intuition congruence
      | repeat constructor; vm_compute; congruence | done |].
    repeat constructor; vm_compute; congruence.
Defined.

(** ** Output shape deriver *)

Lemma contains_reduced v i :
  Forall is_int v → Z.of_nat i < 2 ^ 63 →
  contains v i = bool_decide (reduced v i).
Proof.
  intros Hint Hi. unfold contains, reduced.
  induction Hint as [|a v Ha Hv IH]; [done|].
  simpl. rewrite IH.
  destruct (Z.eqb_spec (to_size_t a) (Z.of_nat i)) as [Heq|Hne]; simpl.
  - symmetry. apply bool_decide_eq_true. rewrite elem_of_cons. left.
    destruct (decide (a < 0)) as [Hneg|Hpos].
    + pose proof (to_size_t_neg a Ha Hneg). lia.
    + rewrite to_size_t_id in Heq; [done|]. unfold is_int in Ha. lia.
  - apply bool_decide_ext. rewrite elem_of_cons.
    split; [tauto|]. intros [Heq|]; [|done]. subst a.
    rewrite to_size_t_id in Hne; [done|]. lia.
Qed.

(** A loop over the positions of a list, seen as a map over its entries. *)
Lemma concat_seq_imap {A B} (h : nat → A → list B) (l : list A) :
  concat ((λ j, match l !! j with Some x => h j x | None => [] end)
            <$> seq 0 (length l)) = concat (imap h l).
Proof.
  revert h. induction l as [|x l IH]; intros h; [done|].
  simpl. f_equal. rewrite <- fmap_S_seq, <- list_fmap_compose.
  by rewrite <- IH.
Qed.

(** The two loops of the deriver never leave the shape vector: the result is
    what they append, or the single size 1 if that leaves the vector empty. *)
Lemma GetOutputShape_eq real_axes output_shape tensor keep_dims :
  GetOutputShape real_axes output_shape tensor keep_dims =
  OK (match output_shape ++
            concat (imap (λ i size,
              if contains real_axes i
              then (if keep_dims then [make_one] else [])
              else [size]) (tensor_shape tensor)) with
      | [] => [make_one]
      | out => out
      end).
Proof.
  unfold GetOutputShape.
  set (shape := tensor_shape tensor).
  set (g := λ j, match shape !! j with
                 | Some size => if contains real_axes j
                                then (if keep_dims then [make_one] else [])
                                else [size]
                 | None => []
                 end).
  assert (Hloop :
    (if keep_dims
     then for_upto (length shape) 0 (λ i output_shape,
            if contains real_axes i then OK (output_shape ++ [make_one])
            else size ← vec_at shape i; OK (output_shape ++ [size]))
            output_shape
     else for_upto (length shape) 0 (λ i output_shape,
            if negb (contains real_axes i)
            then size ← vec_at shape i; OK (output_shape ++ [size])
            else OK output_shape) output_shape)
    = OK (output_shape ++ concat (g <$> seq 0 (length shape)))).
  { destruct keep_dims; apply for_upto_collect; intros j s Hj;
      destruct (lookup_lt_is_Some_2 shape j) as [size Hsize]; try lia;
      unfold g; rewrite Hsize, ?(vec_at_lookup _ _ _ Hsize);
      destruct (contains real_axes j); simpl; by rewrite ?app_nil_r. }
  rewrite Hloop. unfold g. rewrite concat_seq_imap. simpl.
  by match goal with |- context [match ?l with _ => _ end] => destruct l end.
Qed.


Lemma concat_imap_singletons {A B} (f : nat → A → B) (l : list A) :
  concat (imap (λ i x, [f i x]) l) = imap f l.
Proof.
  revert f. induction l as [|x l IH]; intros f; [done|].
  simpl. f_equal. apply (IH (f ∘ S)).
Qed.

Lemma concat_imap_filter_at {A} (P : nat → Prop) `{!∀ i, Decision (P i)}
    (f : nat → nat) (l : list A) :
  concat (imap (λ i x, if decide (P (f i)) then [] else [x]) l) =
  snd <$> filter (λ p, ¬ P p.1) (imap (λ i x, (f i, x)) l).
Proof.
  revert f. induction l as [|x l IH]; intros f; [done|].
  simpl. rewrite filter_cons. simpl.
  specialize (IH (f ∘ S)).
  destruct (decide (P (f 0%nat))) as [HP0|HP0].
  - rewrite decide_False by tauto. simpl. apply IH.
  - rewrite decide_True by done. simpl. f_equal. apply IH.
Qed.

Lemma length_filter_positions_at {A} (P : nat → Prop) `{!∀ i, Decision (P i)}
    (f : nat → nat) (l : list A) :
  length (filter (λ p, P p.1) (imap (λ i x, (f i, x)) l)) =
  length (filter P (f <$> seq 0 (length l))).
Proof.
  revert f. induction l as [|x l IH]; intros f; [done|].
  simpl. rewrite <- fmap_S_seq, <- list_fmap_compose, !filter_cons. simpl.
  specialize (IH (f ∘ S)).
  destruct (decide (P (f 0%nat))); simpl; by rewrite <- IH.
Qed.

Lemma concat_imap_filter {A} (P : nat → Prop) `{!∀ i, Decision (P i)}
    (l : list A) :
  concat (imap (λ i x, if decide (P i) then [] else [x]) l) =
  snd <$> filter (λ p, ¬ P p.1) (imap pair l).
Proof. apply (concat_imap_filter_at P id). Qed.

Lemma length_filter_positions {A} (P : nat → Prop) `{!∀ i, Decision (P i)}
    (l : list A) :
  length (filter (λ p, P p.1) (imap pair l)) =
  length (filter P (seq 0 (length l))).
Proof.
  rewrite <- (list_fmap_id (seq 0 (length l))).
  apply (length_filter_positions_at P id).
Qed.

Lemma length_filter_complement {A} (P : A → Prop) `{!∀ x, Decision (P x)}
    (l : list A) :
  (length (filter P l) + length (filter (λ x, ¬ P x) l) = length l)%nat.
Proof.
  induction l as [|x l IH]; [done|].
  rewrite !filter_cons.
  destruct (decide (P x)).
  - rewrite decide_False by tauto. simpl. lia.
  - rewrite decide_True by done. simpl. lia.
Qed.

Lemma filter_ext_elem_of {A} (P1 P2 : A → Prop)
    `{!∀ x, Decision (P1 x), !∀ x, Decision (P2 x)} (l : list A) :
  (∀ x, x ∈ l → P1 x ↔ P2 x) → filter P1 l = filter P2 l.
Proof.
  induction l as [|x l IH]; intros Hext; [done|].
  rewrite !filter_cons.
  rewrite IH by (intros y Hy; apply Hext; by right).
  destruct (decide (P1 x)) as [HP|HP].
  - rewrite decide_True; [done|]. apply Hext; [left|done].
  - rewrite decide_False; [done|]. rewrite <- Hext; [done|left].
Qed.

(** Among the positions below [n], those in a set of valid positions are as
    many as the set has elements. *)
Lemma count_positions_in (X : gset Z) (n : nat) :
  (∀ x, x ∈ X → 0 ≤ x < Z.of_nat n) →
  length (filter (λ i : nat, Z.of_nat i ∈ X) (seq 0 n)) = size X.
Proof.
  revert X. induction n as [|n IH]; intros X HX.
  - simpl. symmetry. apply size_empty_iff, elem_of_equiv_empty. intros x Hx.
    specialize (HX x Hx). lia.
  - rewrite seq_S, filter_app, length_app. simpl.
    assert (Hrest : filter (λ i : nat, Z.of_nat i ∈ X) (seq 0 n) =
                    filter (λ i : nat, Z.of_nat i ∈ X ∖ {[Z.of_nat n]}) (seq 0 n)).
    { apply filter_ext_elem_of. intros i Hi.
      apply elem_of_seq in Hi. rewrite elem_of_difference, elem_of_singleton.
      split; [|tauto]. intros Hin. split; [done|lia]. }
    rewrite Hrest, IH.
    2:{ intros x Hx. apply elem_of_difference in Hx as [Hx Hne].
        rewrite elem_of_singleton in Hne. specialize (HX x Hx). lia. }
    rewrite filter_cons, filter_nil.
    destruct (decide (Z.of_nat n ∈ X)) as [Hin|Hnotin]; simpl.
    + rewrite size_difference by (by apply singleton_subseteq_l).
      rewrite size_singleton.
      assert (size X ≠ 0%nat); [|lia].
      apply size_non_empty_iff. intros Hempty.
      rewrite elem_of_equiv_empty in Hempty. by apply (Hempty (Z.of_nat n)).
    + rewrite difference_disjoint_L; [lia|].
      by apply disjoint_singleton_r.
Qed.

Section GetOutputShape_facts.
Variables (tensor : Tensor) (real_axes : list Z).
Let shape := tensor_shape tensor.
Let ndim := length shape.

Hypothesis rank_fits_int : Z.of_nat ndim < 2 ^ 31.
Hypothesis axes_nonempty : real_axes ≠ [].
Hypothesis axes_in_range : Forall (λ a, 0 ≤ a < Z.of_nat ndim) real_axes.

Lemma axes_are_int : Forall is_int real_axes.
Proof.
  eapply Forall_impl; [exact axes_in_range|].
  unfold is_int. simpl. lia.
Qed.

Lemma rank_positive : (0 < ndim)%nat.
Proof.
  destruct real_axes as [|a l]; [done|].
  inversion axes_in_range; subst. lia.
Qed.

Lemma contains_real_axes i x :
  shape !! i = Some x → contains real_axes i = bool_decide (reduced real_axes i).
Proof.
  intros Hi. apply lookup_lt_Some in Hi. fold ndim in Hi.
  apply contains_reduced; [apply axes_are_int | lia].
Qed.

Lemma keep_dims_entries :
  concat (imap (λ i size, if contains real_axes i then [make_one] else [size])
            shape) = keep_dims_shape real_axes shape.
Proof.
  unfold keep_dims_shape.
  rewrite <- (concat_imap_singletons
    (λ i size, if decide (reduced real_axes i) then make_one else size)).
  f_equal.
  apply imap_ext. intros i x Hi. simpl.
  rewrite (contains_real_axes i x Hi).
  by destruct (decide (reduced real_axes i));
    [rewrite bool_decide_eq_true_2 | rewrite bool_decide_eq_false_2].
Qed.

Lemma squeezed_entries :
  concat (imap (λ i size, if contains real_axes i then [] else [size]) shape)
  = non_reduced_sizes real_axes shape.
Proof.
  unfold non_reduced_sizes.
  rewrite <- (concat_imap_filter (reduced real_axes)). f_equal.
  apply imap_ext. intros i x Hi. simpl.
  rewrite (contains_real_axes i x Hi).
  by destruct (decide (reduced real_axes i));
    [rewrite bool_decide_eq_true_2 | rewrite bool_decide_eq_false_2].
Qed.

Lemma length_non_reduced_sizes :
  length (non_reduced_sizes real_axes shape) =
  (ndim - size (list_to_set real_axes : gset Z))%nat.
Proof.
  unfold non_reduced_sizes. rewrite length_fmap.
  pose proof (length_filter_positions (λ i, ¬ reduced real_axes i) shape)
    as Hpos.
  simpl in Hpos. rewrite Hpos. clear Hpos.
  fold ndim.
  pose proof (length_filter_complement (reduced real_axes) (seq 0 ndim)) as Hc.
  rewrite length_seq in Hc.
  rewrite <- (count_positions_in (list_to_set real_axes) ndim).
  - unfold reduced in *. 
    rewrite (filter_ext_elem_of (λ i : nat, Z.of_nat i ∈ (list_to_set real_axes : gset Z))
               (λ i : nat, Z.of_nat i ∈ real_axes)); [lia|].
    intros i _. apply elem_of_list_to_set.
  - intros x Hx. apply elem_of_list_to_set in Hx.
    by apply (proj1 (Forall_forall _ _) axes_in_range).
Qed.

End GetOutputShape_facts.

(** C3: for a tensor and a non-empty list of axes, each an index of one of
    its dimensions, the deriver with [keep_dims = true] returns one entry per
    input dimension, the constant 1 at a reduced dimension and the input's
    size expression at any other, so that the rank is kept; with
    [keep_dims = false] it returns the sizes of the dimensions that are not
    reduced, in their order, or the single size 1 when none is left, so that
    the rank is [ndim] minus the number of distinct axes, and at least 1. *)
Theorem GetOutputShape_rank tensor real_axes :
  let shape := tensor_shape tensor in
  let ndim := length shape in
  Z.of_nat ndim < 2 ^ 31 →
  real_axes ≠ [] →
  Forall (λ a, 0 ≤ a < Z.of_nat ndim) real_axes →
  (∃ out,
     GetOutputShape real_axes [] tensor true = OK out ∧
     out = keep_dims_shape real_axes shape ∧
     (∀ i size, shape !! i = Some size →
        out !! i = Some (if decide (reduced real_axes i) then make_one
                         else size)) ∧
     length out = ndim) ∧
  (∃ out,
     GetOutputShape real_axes [] tensor false = OK out ∧
     out = match non_reduced_sizes real_axes shape with
           | [] => [make_one]
           | kept => kept
           end ∧
     length out = (ndim - size (list_to_set real_axes : gset Z)) `max` 1)%nat.
Proof.
  intros shape ndim Hrank Hne Hrange. split.
  - exists (keep_dims_shape real_axes shape).
    pose proof (rank_positive tensor real_axes Hne Hrange) as Hpos.
    assert (Hlen : length (keep_dims_shape real_axes shape) = ndim)
      by apply length_imap.
    split_and!; [|done| |done].
    + rewrite GetOutputShape_eq. simpl.
      rewrite (keep_dims_entries tensor real_axes Hrank Hrange).
      fold shape. destruct (keep_dims_shape real_axes shape); [|done].
      simpl in Hlen. subst ndim. fold shape in Hpos. lia.
    + intros i size Hi. unfold keep_dims_shape.
      by rewrite list_lookup_imap, Hi.
  - eexists. split_and!; [|reflexivity|].
    + rewrite GetOutputShape_eq. simpl.
      by rewrite (squeezed_entries tensor real_axes Hrank Hrange).
    + pose proof (length_non_reduced_sizes tensor real_axes Hrange) as Hlen.
      fold shape ndim in Hlen.
      destruct (non_reduced_sizes real_axes shape); simpl in *; lia.
Qed.

Lemma GetOutputShape_rank_witness :
  let A := placeholder "A" [2; 3; 4] in
  (∃ out, GetOutputShape [1] [] A true = OK out ∧ length out = 3%nat) ∧
  (∃ out, GetOutputShape [1] [] A false = OK out ∧ length out = 2%nat).
Proof.
  intros A.
  destruct (GetOutputShape_rank A [1]) as [(out1 & H1 & _ & _ & L1)
                                            (out2 & H2 & _ & L2)].
  - vm_compute. reflexivity.
  - done.
  - repeat constructor; vm_compute; congruence.
  - split; [exists out1 | exists out2]; (split; [assumption|]).
    + exact L1.
    + rewrite L2. vm_compute. reflexivity.
Defined.

(** ** Reduction expression builder *)

Section DoReduce_facts.
Context `{Collaborators}.
Variables (tensor : Tensor) (real_axes squeeze_axes : list Z).
Variables (reduce_axes : list Var) (indices : list Expr).
Let ndim := length (tensor_shape tensor).

Hypothesis rank_fits_int : Z.of_nat ndim < 2 ^ 31.
Hypothesis real_axes_int : Forall is_int real_axes.
Hypothesis squeeze_axes_int : Forall is_int squeeze_axes.

Local Abbreviation body :=
  (eval_indice_body real_axes squeeze_axes indices reduce_axes).
Local Abbreviation slot := (fill_slot real_axes squeeze_axes indices reduce_axes).
Local Abbreviation slots :=
  (fill_slots real_axes squeeze_axes indices reduce_axes).

(** One iteration of the loop is one step of the design's description. *)
Lemma eval_indice_body_slot i eval_indice c eval_indice' c' :
  (i < ndim)%nat →
  body i (eval_indice, c.1, c.2) = OK (eval_indice', c'.1, c'.2) ↔
  ∃ e, eval_indice' = eval_indice ++ [e] ∧ slot i c e c'.
Proof.
  intros Hi. destruct c as [ic rc], c' as [ic' rc']. simpl.
  unfold eval_indice_body.
  rewrite !contains_reduced by (done || lia).
  destruct (decide (reduced real_axes i)) as [Hred|Hred].
  - rewrite (bool_decide_eq_true_2 _ Hred). unfold vec_at.
    split.
    + destruct (reduce_axes !! rc) as [v|] eqn:Hv; simpl; [|done].
      intros [= <- <- <-]. exists (Var_expr v). split; [done|].
      replace (ic + _)%nat
        with (if decide (reduced squeeze_axes i) then ic else S ic).
      * by constructor.
      * destruct (decide (reduced squeeze_axes i)) as [Hs|Hs];
          [rewrite (bool_decide_eq_true_2 _ Hs)
          |rewrite (bool_decide_eq_false_2 _ Hs)]; simpl; lia.
    + intros (e & -> & Hslot). inversion Hslot; subst; [|done].
      match goal with Hv : reduce_axes !! _ = Some _ |- _ => rewrite Hv end.
      simpl. do 2 f_equal.
      destruct (decide (reduced squeeze_axes i)) as [Hs|Hs];
        [rewrite (bool_decide_eq_true_2 _ Hs)
        |rewrite (bool_decide_eq_false_2 _ Hs)]; simpl; f_equal; lia.
  - rewrite (bool_decide_eq_false_2 _ Hred). unfold vec_at.
    split.
    + destruct (indices !! ic) as [e|] eqn:He; simpl; [|done].
      intros [= <- <- <-]. exists e. split; [done|]. by constructor.
    + intros (e & -> & Hslot). inversion Hslot; subst; [done|].
      match goal with He : indices !! _ = Some _ |- _ => rewrite He end.
      done.
Qed.

(** The loop from dimension [i] on is the run of the design's description
    from [i] on. *)
Lemma for_upto_slots n i eval_indice c eval_indice' c' :
  (i + n = ndim)%nat →
  for_upto n i body (eval_indice, c.1, c.2) = OK (eval_indice', c'.1, c'.2) ↔
  ∃ es, eval_indice' = eval_indice ++ es ∧ slots ndim i c es c'.
Proof.
  revert i eval_indice c. induction n as [|n IH]; intros i eval_indice c Hin.
  - replace i with ndim by lia. simpl. split.
    + intros [= <- Hc1 Hc2]. exists []. rewrite app_nil_r. split; [done|].
      destruct c, c'; simpl in *; subst. constructor.
    + intros (es & -> & Hrun). inversion Hrun; subst; [|lia].
      by rewrite app_nil_r.
  - cbn [for_upto]. split.
    + intros Hrun. apply bind_OK_inv in Hrun as ([[ev1 ic1] rc1] & Hbody & Hrest).
      apply (eval_indice_body_slot i eval_indice c ev1 (ic1, rc1)) in Hbody
        as (e & -> & Hslot); [|lia].
      apply (IH (S i) _ (ic1, rc1)) in Hrest as (es & -> & Hslots); [|lia].
      exists (e :: es). rewrite <- app_assoc. split; [done|].
      econstructor; [lia|done..].
    + intros (es & -> & Hrun). inversion Hrun as [|? ? e c1 es' ? Hlt Hslot Hrest];
        subst; [lia|].
      destruct c1 as [ic1 rc1].
      assert (Hbody : body i (eval_indice, c.1, c.2) =
                      OK (eval_indice ++ [e], ic1, rc1)).
      { apply (eval_indice_body_slot i eval_indice c _ (ic1, rc1)); [lia|].
        eauto. }
      rewrite Hbody. simpl.
      apply (IH (S i) _ (ic1, rc1)); [lia|].
      exists es'. by rewrite <- app_assoc.
Qed.

Lemma eval_indice_loop_slots eval_indice indice_cnt reduce_cnt :
  eval_indice_loop tensor real_axes squeeze_axes reduce_axes indices =
    OK (eval_indice, indice_cnt, reduce_cnt) ↔
  slots ndim 0%nat (0%nat, 0%nat) eval_indice (indice_cnt, reduce_cnt).
Proof.
  unfold eval_indice_loop. fold ndim.
  rewrite (for_upto_slots ndim 0 [] (0%nat, 0%nat) eval_indice
             (indice_cnt, reduce_cnt)) by lia.
  simpl. split; [by intros (es & -> & Hes) | eauto].
Qed.

End DoReduce_facts.

(** Where the cursors stand after the dimensions [i, ..., n - 1]: the
    reduction cursor has counted the reduced dimensions, the output cursor the
    dimensions that are not both reduced and squeezed. *)
Lemma fill_slots_cursors real_axes squeeze_axes indices reduce_axes n i c es c' :
  fill_slots real_axes squeeze_axes indices reduce_axes n i c es c' →
  length es = (n - i)%nat ∧
  c'.2 = (c.2 + length (filter (reduced real_axes) (seq i (n - i))))%nat ∧
  c'.1 = (c.1 + length (filter (λ j, ¬ (reduced real_axes j ∧
                                        reduced squeeze_axes j))
                          (seq i (n - i))))%nat.
Proof.
  induction 1 as [c|i c e c1 es c2 Hlt Hslot Hrest (IHlen & IHred & IHind)].
  - rewrite Nat.sub_diag. simpl. lia.
  - replace (n - i)%nat with (S (n - S i)) by lia.
    simpl. rewrite IHlen, IHred, IHind, !filter_cons.
    inversion Hslot as [ic rc v Hred Hv|ic rc e' Hred He]; subst; simpl.
    + rewrite (decide_True (P := reduced real_axes i)) by done.
      destruct (decide (reduced squeeze_axes i)) as [Hs|Hs].
      * rewrite decide_False by tauto. simpl. lia.
      * rewrite decide_True by tauto. simpl. lia.
    + rewrite (decide_False (P := reduced real_axes i)) by done.
      rewrite decide_True by tauto. simpl. lia.
Qed.

(** The reduction variables: one per axis, in order, each ranging over the
    tensor's size along its axis. *)
Lemma make_reduce_axes_bounds `{Collaborators} tensor real_axes acc names
    reduce_axes names' :
  make_reduce_axes tensor real_axes acc names = OK (reduce_axes, names') →
  ∃ new, reduce_axes = acc ++ new ∧
    Forall2 (λ axis v, 0 ≤ axis ∧
               tensor_shape tensor !! Z.to_nat axis = Some (var_upper_bound v))
      real_axes new.
Proof.
  revert acc names. induction real_axes as [|axis rest IH]; intros acc names.
  - simpl. intros [= <- <-]. exists []. by rewrite app_nil_r.
  - simpl. destruct (UniqName "kk" names) as [name names1].
    intros Hrun. apply bind_OK_inv in Hrun as (bound & Hbound & Hrest).
    apply IH in Hrest as (new & -> & Hnew).
    exists (MkVar bound name :: new). rewrite <- app_assoc. split; [done|].
    constructor; [|done]. simpl.
    unfold vec_at_int, vec_at in Hbound.
    destruct (Z.ltb_spec axis 0); [done|].
    destruct (tensor_shape tensor !! Z.to_nat axis); [|done].
    split; [lia|congruence].
Qed.

(** C2: in the tensor built by [DoReduce], the element at an output index
    tuple is the accumulation function applied to the input indexed by a tuple
    that is filled dimension by dimension, in order, with two cursors: a
    dimension in the axis set takes the next reduction variable (the reduction
    cursor advances, the output cursor advances exactly when the dimension is
    not in the squeeze set, and nothing is read from the output index tuple:
    the loop body does the same on any other tuple); any other dimension
    takes the entry of the output index tuple under the output cursor, which
    advances. *)
Theorem DoReduce_index_tuple `{Collaborators} tensor fn output_shape
    real_axes squeeze_axes initial output_name names C names' :
  Z.of_nat (length (tensor_shape tensor)) < 2 ^ 31 →
  Forall is_int real_axes →
  Forall is_int squeeze_axes →
  DoReduce tensor fn output_shape real_axes squeeze_axes initial output_name
    names = OK (C, names') →
  ∃ reduce_axes compute,
    tensor_fn C = Some compute ∧
    Forall2 (λ axis v, 0 ≤ axis ∧
               tensor_shape tensor !! Z.to_nat axis = Some (var_upper_bound v))
      real_axes reduce_axes ∧
    (∀ indices indices' i st,
       (i < length (tensor_shape tensor))%nat →
       reduced real_axes i →
       eval_indice_body real_axes squeeze_axes indices reduce_axes i st =
       eval_indice_body real_axes squeeze_axes indices' reduce_axes i st) ∧
    ∀ indices e,
      compute indices = OK e ↔
      ∃ eval_indice cursors,
        fill_slots real_axes squeeze_axes indices reduce_axes
          (length (tensor_shape tensor)) 0%nat (0%nat, 0%nat)
          eval_indice cursors ∧
        e = fn (Tensor_call tensor eval_indice) reduce_axes initial.
Proof.
  intros Hrank Hreal Hsqueeze Hrun. unfold DoReduce in Hrun.
  apply bind_OK_inv in Hrun as ([reduce_axes names1] & Haxes & Hrun).
  injection Hrun as <- <-.
  apply make_reduce_axes_bounds in Haxes as (new & -> & Hnew).
  exists new, (DoReduce_compute tensor fn real_axes squeeze_axes initial new).
  split_and!; [done..| |].
  { intros indices indices' i [[eval_indice ic] rc] Hi Hred.
    unfold eval_indice_body.
    rewrite (contains_reduced real_axes) by (done || lia).
    by rewrite (bool_decide_eq_true_2 _ Hred). }
  intros indices e. unfold DoReduce_compute. split.
  - intros Hcompute.
    apply bind_OK_inv in Hcompute as ([[eval_indice ic] rc] & Hloop & He).
    injection He as <-.
    apply eval_indice_loop_slots in Hloop; [|done..].
    by exists eval_indice, (ic, rc).
  - intros (eval_indice & [ic rc] & Hslots & ->).
    apply eval_indice_loop_slots in Hslots; [|done..].
    by rewrite Hslots.
Qed.

Lemma DoReduce_index_tuple_witness :
  let A := placeholder "A" [2; 3; 4] in
  let fn := fold_call "reduce_sum" in
  let output_shape := [Const (Int 32) 2; Const (Int 32) 4] in
  ∃ C names',
    DoReduce (H := counter_collaborators) A fn output_shape [1] [1]
      (Const (Float 32) 0) "C" 0%nat = OK (C, names') ∧
    ∃ reduce_axes compute,
      tensor_fn C = Some compute ∧
      ∀ indices e,
        compute indices = OK e ↔
        ∃ eval_indice cursors,
          fill_slots [1] [1] indices reduce_axes 3%nat 0%nat (0%nat, 0%nat)
            eval_indice cursors ∧
          e = fn (Tensor_call A eval_indice) reduce_axes (Const (Float 32) 0).
Proof.
  intros A fn output_shape.
  eexists _, _. split; [reflexivity|].
  edestruct (DoReduce_index_tuple (H := counter_collaborators) A fn
               output_shape [1] [1] (Const (Float 32) 0) "C" 0%nat)
    as (reduce_axes & compute & Hfn & _ & _ & Hcompute).
  - vm_compute. reflexivity.
  - repeat constructor; vm_compute; congruence.
  - repeat constructor; vm_compute; congruence.
  - reflexivity.
  - exists reduce_axes, compute. split; [exact Hfn | exact Hcompute].
Defined.

(** ** Facade and named reductions *)

Section Reduce_facts.
Context `{Collaborators}.

(** Every element of the tensor built by [DoReduce] is the accumulation
    function applied to an input element, the reduction variables and the
    initial value it was given. *)
Lemma DoReduce_element tensor fn output_shape real_axes squeeze_axes initial
    output_name names C names' :
  DoReduce tensor fn output_shape real_axes squeeze_axes initial output_name
    names = OK (C, names') →
  tensor_shape C = output_shape ∧
  ∃ reduce_axes,
    tensor_fn C = Some (DoReduce_compute tensor fn real_axes squeeze_axes
                          initial reduce_axes) ∧
    ∀ indices e,
      DoReduce_compute tensor fn real_axes squeeze_axes initial reduce_axes
        indices = OK e →
      ∃ eval_indice,
        e = fn (Tensor_call tensor eval_indice) reduce_axes initial.
Proof.
  unfold DoReduce. intros Hrun.
  apply bind_OK_inv in Hrun as ([reduce_axes names1] & _ & Hrun).
  injection Hrun as <- <-. split; [done|].
  exists reduce_axes. split; [done|].
  intros indices e Hcompute. unfold DoReduce_compute in Hcompute.
  apply bind_OK_inv in Hcompute as ([[eval_indice ic] rc] & _ & He).
  injection He as <-. by exists eval_indice.
Qed.

(** The facade, step by step. *)
Lemma Reduce_steps tensor axes fn keep_dims initial output_name names C names' :
  Reduce tensor axes fn keep_dims initial output_name names = OK (C, names') →
  (0 < length (tensor_shape tensor))%nat ∧
  ∃ real_axes output_shapes,
    GetRealAxes (to_int (Z.of_nat (length (tensor_shape tensor)))) axes [] =
      OK real_axes ∧
    GetOutputShape real_axes [] tensor keep_dims = OK output_shapes ∧
    DoReduce tensor fn output_shapes real_axes
      (if keep_dims then [] else real_axes) initial output_name names =
      OK (C, names').
Proof.
  unfold Reduce.
  destruct (Z.gtb_spec (Z.of_nat (length (tensor_shape tensor))) 0);
    simpl; [|done].
  intros Hrun. split; [lia|].
  apply bind_OK_inv in Hrun as (real_axes & Haxes & Hrun).
  apply bind_OK_inv in Hrun as (output_shapes & Hshape & Hrun).
  eauto.
Qed.

Lemma Reduce_element tensor axes fn keep_dims initial output_name names C names' :
  Reduce tensor axes fn keep_dims initial output_name names = OK (C, names') →
  ∃ compute,
    tensor_fn C = Some compute ∧
    ∀ indices e,
      compute indices = OK e →
      ∃ eval_indice reduce_axes,
        e = fn (Tensor_call tensor eval_indice) reduce_axes initial.
Proof.
  intros Hrun.
  apply Reduce_steps in Hrun as (_ & real_axes & output_shapes & _ & _ & Hdo).
  apply DoReduce_element in Hdo as (_ & reduce_axes & Hfn & Helem).
  eexists. split; [exact Hfn|].
  intros indices e He. apply Helem in He as (eval_indice & ->). eauto.
Qed.

End Reduce_facts.

(** C8: [ReduceSum] runs the facade with the add-fold and, as the fold
    identity, the caller's initial value if it is defined and the constant 0
    of [A]'s element type otherwise; [ReduceProd] does so with the
    multiply-fold and the constant 1.  That identity is the third argument of
    the accumulation function in every element of the result. *)
Theorem ReduceSum_ReduceProd_identity `{Collaborators} A axes keep_dims
    initial output_name names :
  let sum_identity :=
    if defined initial then initial else make_const (Tensor_type A) 0 in
  let prod_identity :=
    if defined initial then initial else make_const (Tensor_type A) 1 in
  ReduceSum A axes keep_dims initial output_name names =
    Reduce A axes lang_ReduceSum keep_dims sum_identity output_name names ∧
  ReduceProd A axes keep_dims initial output_name names =
    Reduce A axes lang_ReduceMul keep_dims prod_identity output_name names ∧
  (∀ C names',
     ReduceSum A axes keep_dims initial output_name names = OK (C, names') →
     ∃ compute,
       tensor_fn C = Some compute ∧
       ∀ indices e,
         compute indices = OK e →
         ∃ eval_indice reduce_axes,
           e = lang_ReduceSum (Tensor_call A eval_indice) reduce_axes
                 sum_identity) ∧
  (∀ C names',
     ReduceProd A axes keep_dims initial output_name names = OK (C, names') →
     ∃ compute,
       tensor_fn C = Some compute ∧
       ∀ indices e,
         compute indices = OK e →
         ∃ eval_indice reduce_axes,
           e = lang_ReduceMul (Tensor_call A eval_indice) reduce_axes
                 prod_identity).
Proof.
  intros sum_identity prod_identity.
  assert (Hsum : ReduceSum A axes keep_dims initial output_name names =
    Reduce A axes lang_ReduceSum keep_dims sum_identity output_name names).
  { unfold ReduceSum, sum_identity. by destruct (defined initial). }
  assert (Hprod : ReduceProd A axes keep_dims initial output_name names =
    Reduce A axes lang_ReduceMul keep_dims prod_identity output_name names).
  { unfold ReduceProd, prod_identity. by destruct (defined initial). }
  split_and!; [done..| |].
  - intros C names'. rewrite Hsum. apply Reduce_element.
  - intros C names'. rewrite Hprod. apply Reduce_element.
Qed.

Lemma ReduceSum_ReduceProd_identity_witness :
  let A := placeholder "A" [2; 3; 4] in
  ∃ C names',
    ReduceSum (H := counter_collaborators) A [1] false Undefined "C" 0%nat =
      OK (C, names') ∧
    ∃ compute,
      tensor_fn C = Some compute ∧
      ∀ indices e,
        compute indices = OK e →
        ∃ eval_indice reduce_axes,
          e = fold_call "reduce_sum" (Tensor_call A eval_indice) reduce_axes
                (Const (Float 32) 0).
Proof.
  intros A. eexists _, _. split; [reflexivity|].
  destruct (ReduceSum_ReduceProd_identity (H := counter_collaborators)
              A [1] false Undefined "C" 0%nat) as (_ & _ & Hsum & _).
  exact (Hsum _ _ eq_refl).
Defined.

(** C10: [ReduceMax] and [ReduceMin] do not look at the initial value they
    are given: for any two initial values the result is the same, the one of
    the facade run with an undefined identity. *)
Theorem ReduceMax_ReduceMin_ignore_initial `{Collaborators} A axes keep_dims
    initial1 initial2 output_name names :
  ReduceMax A axes keep_dims initial1 output_name names =
    ReduceMax A axes keep_dims initial2 output_name names ∧
  ReduceMin A axes keep_dims initial1 output_name names =
    ReduceMin A axes keep_dims initial2 output_name names ∧
  ReduceMax A axes keep_dims initial1 output_name names =
    Reduce A axes lang_ReduceMax keep_dims Undefined output_name names ∧
  ReduceMin A axes keep_dims initial1 output_name names =
    Reduce A axes lang_ReduceMin keep_dims Undefined output_name names.
Proof. by split_and!. Qed.

(** ** Warp reduction builder *)

(** One turn of the lane loop. *)
Lemma lane_loop_step shape bound idx lane :
  lane_loop shape bound idx lane =
  if to_size_t idx >=? bound then
    match vec_at_int shape idx ≫= as_int32 with
    | OK size => lane_loop shape bound (idx - 1) (Expr_mul_int lane size)
    | Error e => Error e
    end
  else OK lane.
Proof.
  funelim (lane_loop shape bound idx lane).
  - by rewrite Heq.
  - by rewrite Heq, Hsize.
  - rewrite Heq.
    by match goal with Hv : _ ≫= _ = Error _ |- _ => rewrite Hv end.
Qed.

(** With a bound of 0 the comparison in [size_t] never ends the loop: it runs
    until an access fails. *)
Lemma lane_loop_bound_0 shape bound idx lane lane' :
  bound ≤ 0 → lane_loop shape bound idx lane ≠ OK lane'.
Proof.
  intros Hbound. funelim (lane_loop shape bound idx lane).
  - destruct (Z.geb_spec (to_size_t idx) bound); [done|].
    pose proof (Z.mod_pos_bound idx (2 ^ 64)). unfold to_size_t in *. lia.
  - by apply H.
  - done.
Qed.

Section lane_loop_facts.
Variable shape : list Expr.
Hypothesis rank_fits_int : Z.of_nat (length shape) < 2 ^ 31.

(** From the last dimension down to dimension [b], all of constant size. *)
Lemma lane_loop_consts (b n : nat) sizes lane :
  (1 ≤ b)%nat → (b + n ≤ length shape)%nat →
  take n (drop b shape) = Const (Int 32) <$> sizes →
  lane_loop shape (Z.of_nat b) (Z.of_nat (b + n) - 1) lane =
    OK (lane_product lane sizes).
Proof.
  intros Hb. revert sizes lane.
  induction n as [|n IH]; intros sizes lane Hlen Hsizes;
    rewrite lane_loop_step.
  - rewrite to_size_t_id by lia.
    destruct (Z.geb_spec (Z.of_nat (b + 0) - 1) (Z.of_nat b)); [lia|].
    symmetry in Hsizes. apply fmap_nil_inv in Hsizes. by subst.
  - rewrite to_size_t_id by lia.
    destruct (Z.geb_spec (Z.of_nat (b + S n) - 1) (Z.of_nat b)); [|lia].
    destruct (lookup_lt_is_Some_2 (drop b shape) n) as [x Hx];
      [rewrite length_drop; lia|].
    rewrite (take_S_r _ _ _ Hx) in Hsizes. symmetry in Hsizes.
    apply fmap_app_inv in Hsizes as (sizes' & last & Hsizes' & Hlast & ->).
    destruct last as [|v [|]]; try done. injection Hlast as ->.
    rewrite lookup_drop in Hx.
    unfold vec_at_int, vec_at.
    destruct (Z.ltb_spec (Z.of_nat (b + S n) - 1) 0); [lia|].
    replace (Z.to_nat (Z.of_nat (b + S n) - 1)) with (b + n)%nat by lia.
    rewrite Hx. simpl.
    replace (Z.of_nat (b + S n) - 1 - 1) with (Z.of_nat (b + n) - 1) by lia.
    rewrite (IH sizes') by (done || lia).
    unfold lane_product. by rewrite reverse_snoc.
Qed.

(** If the loop ends well, the sizes it went through are constants. *)
Lemma lane_loop_OK_consts (b n : nat) lane lane' :
  (1 ≤ b)%nat → (b + n ≤ length shape)%nat →
  lane_loop shape (Z.of_nat b) (Z.of_nat (b + n) - 1) lane = OK lane' →
  ∃ sizes, take n (drop b shape) = Const (Int 32) <$> sizes.
Proof.
  intros Hb. revert lane.
  induction n as [|n IH]; intros lane Hlen Hrun.
  - by exists [].
  - rewrite lane_loop_step in Hrun.
    rewrite to_size_t_id in Hrun by lia.
    destruct (Z.geb_spec (Z.of_nat (b + S n) - 1) (Z.of_nat b)); [|lia].
    destruct (lookup_lt_is_Some_2 (drop b shape) n) as [x Hx];
      [rewrite length_drop; lia|].
    rewrite (take_S_r _ _ _ Hx).
    rewrite lookup_drop in Hx.
    unfold vec_at_int, vec_at in Hrun.
    destruct (Z.ltb_spec (Z.of_nat (b + S n) - 1) 0); [lia|].
    replace (Z.to_nat (Z.of_nat (b + S n) - 1)) with (b + n)%nat in Hrun
      by lia.
    rewrite Hx in Hrun. simpl in Hrun.
    destruct (as_int32 x) as [v|] eqn:Hconst; [|done].
    replace (Z.of_nat (b + S n) - 1 - 1) with (Z.of_nat (b + n) - 1) in Hrun
      by lia.
    apply IH in Hrun as [sizes' Hsizes']; [|lia].
    exists (sizes' ++ [v]). rewrite fmap_app, Hsizes'. f_equal.
    unfold as_int32 in Hconst. repeat case_match; try done.
    by injection Hconst as ->.
Qed.

End lane_loop_facts.


Lemma for_int_push {A} (x : A) (n : Z) (v : list A) :
  for_int 0 n (λ _ v, OK (v ++ [x])) v = OK (v ++ replicate (Z.to_nat n) x).
Proof.
  unfold for_int. rewrite (for_upto_collect _ (λ _, [x])) by done.
  rewrite Z.sub_0_r. do 2 f_equal.
  generalize 0%nat. induction (Z.to_nat n) as [|m IH]; intros i; [done|].
  simpl. f_equal. apply IH.
Qed.

Section WarpReduce_facts.
Context `{Collaborators}.
Variables (A : Tensor) (k : Z) (reduce_type output_name : string).
Let shape := tensor_shape A.
Let rank := length shape.
Let zero := Const (Int 32) 0.

Hypothesis rank_fits_int : Z.of_nat rank < 2 ^ 31.

Lemma first_lane_index : to_int (to_size_t (Z.of_nat rank - 1)) = Z.of_nat rank - 1.
Proof.
  destruct rank as [|r]; [done|].
  rewrite to_size_t_id by lia. apply to_int_id. unfold is_int. lia.
Qed.

(** The element of [tmp_out] at the leading indices and any lane position. *)
Lemma tmp_compute_leading lane leading x :
  0 ≤ k → (length leading + Z.to_nat k = rank)%nat →
  WarpReduce_tmp_compute A k reduce_type lane (leading ++ [x]) =
    OK (Call reduce_type
          [Tensor_expr A;
           IndiceToAbsOffset shape (leading ++ replicate (Z.to_nat k) zero);
           lane]).
Proof.
  intros Hk Hlen. unfold WarpReduce_tmp_compute, vec_prefix.
  rewrite length_app. simpl.
  rewrite bool_decide_eq_true_2 by lia.
  replace (Z.to_nat (Z.of_nat (length leading + 1) - 1)) with (length leading)
    by lia.
  rewrite take_app_length. simpl.
  rewrite for_int_push. simpl.
  rewrite length_app, length_replicate. fold shape rank.
  by rewrite (proj2 (Nat.eqb_eq _ _)) by lia.
Qed.

(** No other index tuple has an element. *)
Lemma tmp_compute_inv lane indexs e :
  0 ≤ k →
  WarpReduce_tmp_compute A k reduce_type lane indexs = OK e →
  ∃ leading x,
    indexs = leading ++ [x] ∧ (length leading + Z.to_nat k = rank)%nat.
Proof.
  intros Hk Hrun. unfold WarpReduce_tmp_compute in Hrun.
  apply bind_OK_inv in Hrun as (prefix & Hprefix & Hrun).
  rewrite for_int_push in Hrun. simpl in Hrun.
  unfold vec_prefix in Hprefix. case_bool_decide as Hrange; [|done].
  injection Hprefix as <-.
  destruct indexs as [|i0 indexs0] using rev_ind; [simpl in Hrange; lia|].
  clear IHindexs0. exists indexs0, i0. split; [done|].
  rewrite !length_app in Hrun. simpl in Hrun.
  replace (Z.to_nat (Z.of_nat (length indexs0 + 1) - 1)) with (length indexs0)
    in Hrun by lia.
  rewrite take_app_length, length_replicate in Hrun.
  fold shape rank in Hrun.
  destruct (Nat.eqb_spec rank (length indexs0 + Z.to_nat k)); [lia|done].
Qed.

(** The builder on a valid request. *)
Lemma WarpReduce_valid names sizes :
  0 ≤ k < Z.of_nat rank →
  drop (rank - Z.to_nat k) shape = Const (Int 32) <$> sizes →
  let leading_shape := take (rank - Z.to_nat k) shape in
  let lane := lane_product (Const (Int 32) 1) sizes in
  ∃ tmp_name out_name names',
    let tmp_out :=
      Compute (leading_shape ++ [Const (Int 32) 32])
        (WarpReduce_tmp_compute A k reduce_type lane) tmp_name in
    let out :=
      Compute leading_shape (WarpReduce_out_compute tmp_out) out_name in
    WarpReduce A k reduce_type output_name names = OK ([out; tmp_out], names').
Proof.
  intros Hk Hsizes leading_shape lane. unfold WarpReduce. fold shape rank.
  rewrite first_lane_index, to_size_t_id by lia.
  replace (Z.of_nat rank - k) with (Z.of_nat (rank - Z.to_nat k)) by lia.
  replace (Z.of_nat rank - 1)
    with (Z.of_nat (rank - Z.to_nat k + Z.to_nat k) - 1) by lia.
  rewrite (lane_loop_consts shape rank_fits_int _ _ sizes);
    [|lia|fold rank; lia|].
  2:{ rewrite <- Hsizes. apply take_ge. rewrite length_drop. fold rank. lia. }
  simpl. unfold vec_prefix. rewrite bool_decide_eq_true_2 by (fold rank; lia).
  rewrite Nat2Z.id. simpl.
  destruct (UniqName _ names) as [tmp_name names1].
  destruct (UniqName output_name names1) as [out_name names2].
  by exists tmp_name, out_name, names2.
Qed.

(** The builder returns only on a valid request. *)
Lemma WarpReduce_OK_inv names result names' :
  WarpReduce A k reduce_type output_name names = OK (result, names') →
  0 ≤ k < Z.of_nat rank ∧
  ∃ sizes, drop (rank - Z.to_nat k) shape = Const (Int 32) <$> sizes.
Proof.
  unfold WarpReduce. fold shape rank. intros Hrun.
  apply bind_OK_inv in Hrun as (lane & Hlane & Hrun).
  apply bind_OK_inv in Hrun as (prefix & Hprefix & _).
  unfold vec_prefix in Hprefix. fold rank in Hprefix.
  case_bool_decide as Hrange; [|done].
  rewrite first_lane_index, to_size_t_id in Hlane by lia.
  destruct (decide (k = Z.of_nat rank)) as [->|Hne].
  { rewrite Z.sub_diag in Hlane. by apply lane_loop_bound_0 in Hlane. }
  split; [lia|].
  replace (Z.of_nat rank - k) with (Z.of_nat (rank - Z.to_nat k)) in Hlane
    by lia.
  replace (Z.of_nat rank - 1)
    with (Z.of_nat (rank - Z.to_nat k + Z.to_nat k) - 1) in Hlane by lia.
  apply (lane_loop_OK_consts shape rank_fits_int) in Hlane as [sizes Hsizes];
    [|lia|fold rank; lia].
  exists sizes. rewrite <- Hsizes. symmetry. apply take_ge.
  rewrite length_drop. fold rank. lia.
Qed.

End WarpReduce_facts.

(** ** What the lane and the offsets denote *)

Section eval_facts.
Variable env : string → Z.

Lemma product_app l1 l2 : product (l1 ++ l2) = product l1 * product l2.
Proof.
  unfold product. induction l1 as [|x l1 IH]; simpl; [lia|].
  rewrite IH. lia.
Qed.

Lemma product_reverse l : product (reverse l) = product l.
Proof.
  induction l as [|x l IH]; [done|].
  rewrite reverse_cons, product_app, IH. unfold product. simpl. lia.
Qed.

Lemma eval_foldl_mul_int lane sizes x :
  eval env lane = Some x →
  eval env (foldl Expr_mul_int lane sizes) = Some (x * product sizes).
Proof.
  revert lane x. induction sizes as [|v sizes IH]; intros lane x Hlane; simpl.
  - rewrite Hlane. f_equal. unfold product. simpl. lia.
  - erewrite IH; [|simpl; rewrite Hlane; reflexivity].
    f_equal. unfold product. simpl. lia.
Qed.

(** The lane expression denotes the product of the sizes. *)
Lemma eval_lane_product sizes :
  eval env (lane_product (Const (Int 32) 1) sizes) = Some (product sizes).
Proof.
  unfold lane_product. erewrite eval_foldl_mul_int; [|reflexivity].
  rewrite product_reverse. f_equal. lia.
Qed.

Lemma eval_Mul_inv a b z :
  eval env (Mul a b) = Some z →
  ∃ x y, eval env a = Some x ∧ eval env b = Some y ∧ z = x * y.
Proof.
  simpl. destruct (eval env a) as [x|]; [|done].
  destruct (eval env b) as [y|]; [|done].
  intros [= <-]. eauto.
Qed.

Lemma eval_Add_inv a b z :
  eval env (Add a b) = Some z →
  ∃ x y, eval env a = Some x ∧ eval env b = Some y ∧ z = x + y.
Proof.
  simpl. destruct (eval env a) as [x|]; [|done].
  destruct (eval env b) as [y|]; [|done].
  intros [= <-]. eauto.
Qed.

Lemma multiple_of_foldl_Mul m e l :
  multiple_of env m e → multiple_of env m (foldl Mul e l).
Proof.
  revert e. induction l as [|s l IH]; intros e He; [done|].
  simpl. apply IH. intros z Hz.
  apply eval_Mul_inv in Hz as (x & y & Hx & _ & ->).
  apply Z.divide_mul_l. by apply He.
Qed.

(** An index scaled by sizes that end with the constant sizes [sizes]. *)
Lemma multiple_of_scaled i l sizes :
  multiple_of env (product sizes) (foldl Mul i (l ++ (Const (Int 32) <$> sizes))).
Proof.
  rewrite foldl_app. generalize (foldl Mul i l). intros e.
  induction sizes as [|v sizes IH] using rev_ind.
  - intros z _. unfold product. simpl. apply Z.divide_1_l.
  - rewrite fmap_app, foldl_app. simpl. intros z Hz.
    apply eval_Mul_inv in Hz as (x & y & Hx & Hy & ->).
    injection Hy as <-. apply IH in Hx as [q ->].
    rewrite product_app. exists q. unfold product. simpl. ring.
Qed.

Lemma multiple_of_zero_terms m shape n :
  Forall (multiple_of env m) (offset_terms shape (replicate n (Const (Int 32) 0))).
Proof.
  revert n. induction shape as [|s shape IH]; intros [|n]; simpl;
    try constructor; [|apply IH].
  apply multiple_of_foldl_Mul. intros z [= <-]. apply Z.divide_0_r.
Qed.

Lemma multiple_of_offset_terms leading_shape leading sizes :
  length leading = length leading_shape →
  Forall (multiple_of env (product sizes))
    (offset_terms (leading_shape ++ (Const (Int 32) <$> sizes))
       (leading ++ replicate (length sizes) (Const (Int 32) 0))).
Proof.
  revert leading. induction leading_shape as [|s leading_shape IH];
    intros [|i leading] Hlen; try done; simpl.
  - apply multiple_of_zero_terms.
  - constructor; [apply multiple_of_scaled |].
    apply IH. simpl in Hlen. lia.
Qed.

Lemma multiple_of_foldl_Add m e l :
  multiple_of env m e → Forall (multiple_of env m) l →
  multiple_of env m (foldl Add e l).
Proof.
  intros He Hl. revert e He. induction Hl as [|t l Ht Hl IH]; intros e He;
    [done|].
  simpl. apply IH. intros z Hz.
  apply eval_Add_inv in Hz as (x & y & Hx & Hy & ->).
  apply Z.divide_add_r; [by apply He | by apply Ht].
Qed.

(** The offset of the leading indices followed by zeros is a multiple of the
    product of the trailing sizes. *)
Lemma multiple_of_offset leading_shape leading sizes :
  length leading = length leading_shape →
  multiple_of env (product sizes)
    (IndiceToAbsOffset (leading_shape ++ (Const (Int 32) <$> sizes))
       (leading ++ replicate (length sizes) (Const (Int 32) 0))).
Proof.
  intros Hlen. unfold IndiceToAbsOffset.
  pose proof (multiple_of_offset_terms leading_shape leading sizes Hlen)
    as Hterms.
  destruct (offset_terms _ _) as [|t ts]; [by intros z|].
  inversion Hterms; subst. by apply multiple_of_foldl_Add.
Qed.

End eval_facts.

Section eval_defined.
Variable env : string → Z.
Local Abbreviation denotes := (denotes env).

Lemma denotes_foldl_Mul e l :
  denotes e → Forall denotes l → denotes (foldl Mul e l).
Proof.
  intros He Hl. revert e He. induction Hl as [|s l Hs Hl IH]; intros e He;
    [done|].
  simpl. apply IH. destruct He as [x Hx], Hs as [y Hy].
  exists (x * y). simpl. by rewrite Hx, Hy.
Qed.

Lemma denotes_foldl_Add e l :
  denotes e → Forall denotes l → denotes (foldl Add e l).
Proof.
  intros He Hl. revert e He. induction Hl as [|s l Hs Hl IH]; intros e He;
    [done|].
  simpl. apply IH. destruct He as [x Hx], Hs as [y Hy].
  exists (x + y). simpl. by rewrite Hx, Hy.
Qed.

Lemma denotes_offset_terms shape indices :
  Forall denotes shape → Forall denotes indices →
  Forall denotes (offset_terms shape indices).
Proof.
  intros Hshape. revert indices.
  induction Hshape as [|s shape Hs Hshape IH]; intros indices Hindices;
    [constructor|].
  destruct Hindices as [|i indices Hi Hindices]; simpl; constructor.
  - by apply denotes_foldl_Mul.
  - by apply IH.
Qed.

(** The offset denotes an integer as soon as the sizes and the indices do. *)
Lemma denotes_offset shape indices :
  shape ≠ [] → indices ≠ [] →
  Forall denotes shape → Forall denotes indices →
  denotes (IndiceToAbsOffset shape indices).
Proof.
  intros Hs Hi Hshape Hindices. unfold IndiceToAbsOffset.
  pose proof (denotes_offset_terms shape indices Hshape Hindices) as Hterms.
  destruct shape as [|s shape], indices as [|i indices]; try done.
  simpl in *. inversion Hterms; subst. by apply denotes_foldl_Add.
Qed.

End eval_defined.

(** C6: for a tensor whose last [k] sizes are the integer constants [sizes],
    with [1 ≤ k < rank], [WarpReduce] returns [out] and [tmp_out]: the shape
    of [tmp_out] is the leading sizes followed by 32; its element at the
    leading indices and any lane position is the call of the intrinsic
    [reduce_type] on the tensor, the flattened offset of the leading indices
    followed by [k] zeros, and the lane count, which is the expression the
    lane loop builds, 1 multiplied by each of the [k] trailing sizes from the
    last dimension down, and denotes their product; [tmp_out] has no element
    at an index tuple of another length; the shape of [out] is the leading
    sizes, and its element is the element of [tmp_out] at lane position 0. *)
Theorem WarpReduce_result `{Collaborators} A k reduce_type output_name names
    sizes :
  let shape := tensor_shape A in
  let rank := length shape in
  let leading_shape := take (rank - Z.to_nat k) shape in
  let lane := foldl Expr_mul_int (Const (Int 32) 1) (reverse sizes) in
  Z.of_nat rank < 2 ^ 31 →
  1 ≤ k < Z.of_nat rank →
  drop (rank - Z.to_nat k) shape = Const (Int 32) <$> sizes →
  (∀ env, eval env lane = Some (product sizes)) ∧
  ∃ out tmp_out names' tmp_fn out_fn,
    WarpReduce A k reduce_type output_name names =
      OK ([out; tmp_out], names') ∧
    tensor_shape tmp_out = leading_shape ++ [Const (Int 32) 32] ∧
    tensor_fn tmp_out = Some tmp_fn ∧
    (∀ leading x,
       length leading = length leading_shape →
       tmp_fn (leading ++ [x]) =
         OK (Call reduce_type
               [Tensor_expr A;
                IndiceToAbsOffset shape
                  (leading ++ replicate (Z.to_nat k) (Const (Int 32) 0));
                lane])) ∧
    (∀ indexs e,
       tmp_fn indexs = OK e →
       ∃ leading x,
         indexs = leading ++ [x] ∧ length leading = length leading_shape) ∧
    tensor_shape out = leading_shape ∧
    tensor_fn out = Some out_fn ∧
    (∀ indexs,
       out_fn indexs =
         OK (Load (Tensor_expr tmp_out) (indexs ++ [Const (Int 32) 0]))).
Proof.
  intros shape rank leading_shape lane Hrank Hk Hsizes.
  subst lane leading_shape rank shape.
  split; [intros env; apply eval_lane_product|].
  destruct (WarpReduce_valid A k reduce_type output_name Hrank names sizes)
    as (tmp_name & out_name & names' & Hrun); [lia|done|].
  simpl in Hrun.
  eexists _, _, names', _, _.
  split_and!; [exact Hrun|done..| | |done|done|done].
  - intros leading x Hlen.
    apply tmp_compute_leading; [lia|].
    rewrite Hlen, length_take. lia.
  - intros indexs e He.
    destruct (tmp_compute_inv A k reduce_type _ _ _ ltac:(lia) He)
      as (leading & x & -> & Hleading).
    exists leading, x. split; [done|]. rewrite length_take. lia.
Qed.

Lemma WarpReduce_result_witness :
  let A := placeholder "A" [8; 64] in
  let lane := Mul (Const (Int 32) 1) (Const (Int 32) 64) in
  (∀ env, eval env lane = Some 64) ∧
  ∃ out tmp_out names' tmp_fn out_fn,
    WarpReduceMax (H := counter_collaborators) A 1 "out" 0%nat =
      OK ([out; tmp_out], names') ∧
    tensor_shape tmp_out = [Const (Int 32) 8; Const (Int 32) 32] ∧
    tensor_shape out = [Const (Int 32) 8] ∧
    tensor_fn tmp_out = Some tmp_fn ∧
    tensor_fn out = Some out_fn ∧
    (∀ i x,
       tmp_fn [i; x] =
         OK (Call "cinn_warp_reduce_max"
               [Tensor_expr A;
                IndiceToAbsOffset (tensor_shape A) [i; Const (Int 32) 0];
                lane])) ∧
    (tmp_fn [Const (Int 32) 0] = Error ShapeMismatch) ∧
    ∀ i,
      out_fn [i] = OK (Load (Tensor_expr tmp_out) [i; Const (Int 32) 0]).
Proof.
  intros A lane.
  destruct (WarpReduce_result (H := counter_collaborators) A 1
              "cinn_warp_reduce_max" "out" 0%nat [64])
    as (Hlane & out & tmp_out & names' & tmp_fn & out_fn &
        Hrun & Htmp & Hfn & Helem & Honly & Hout & Hofn & Hload).
  - vm_compute. reflexivity.
  - vm_compute. split; congruence.
  - reflexivity.
  - split; [exact Hlane|].
    exists out, tmp_out, names', tmp_fn, out_fn.
    split_and!;
      [exact Hrun|exact Htmp|exact Hout|exact Hfn|exact Hofn| | |].
    + intros i x. apply (Helem [i] x). reflexivity.
    + destruct (tmp_fn [Const (Int 32) 0]) as [e|failure] eqn:He.
      * destruct (Honly _ _ He) as (leading & x & Hsplit & Hlen).
        apply (f_equal length) in Hsplit. rewrite length_app in Hsplit.
        simpl in Hsplit, Hlen. lia.
      * injection Hrun as <- <-. injection Hfn as <-.
        vm_compute in He. congruence.
    + intros i. apply (Hload [i]).
Defined.

(** C7: on a tensor whose last [k] sizes are integer constants, with
    [0 ≤ k < rank], [WarpReduce] returns; and whenever it returns, the last
    [k] sizes are integer constants, every element of [tmp_out] is a call of
    the intrinsic whose lane argument denotes the product of those sizes and
    whose offset argument, whatever values the index variables take, denotes
    a multiple of that product. *)
Theorem WarpReduce_lane_and_offsets `{Collaborators} A k reduce_type
    output_name names :
  let shape := tensor_shape A in
  let rank := length shape in
  Z.of_nat rank < 2 ^ 31 →
  (∀ sizes,
     0 ≤ k < Z.of_nat rank →
     drop (rank - Z.to_nat k) shape = Const (Int 32) <$> sizes →
     ∃ out tmp_out names',
       WarpReduce A k reduce_type output_name names =
         OK ([out; tmp_out], names')) ∧
  (∀ out tmp_out names',
     WarpReduce A k reduce_type output_name names =
       OK ([out; tmp_out], names') →
     ∃ sizes lane tmp_fn,
       drop (rank - Z.to_nat k) shape = Const (Int 32) <$> sizes ∧
       Z.of_nat (length sizes) = k ∧
       tensor_fn tmp_out = Some tmp_fn ∧
       (∀ env, eval env lane = Some (product sizes)) ∧
       ∀ indexs e,
         tmp_fn indexs = OK e →
         ∃ offset,
           e = Call reduce_type [Tensor_expr A; offset; lane] ∧
           (∀ env, multiple_of env (product sizes) offset) ∧
           (∀ env,
              Forall (denotes env) shape →
              Forall (denotes env) indexs →
              denotes env offset)).
Proof.
  intros shape rank Hrank. subst rank shape. split.
  - intros sizes Hk Hsizes.
    destruct (WarpReduce_valid A k reduce_type output_name Hrank names sizes)
      as (tmp_name & out_name & names' & Hrun); [done..|].
    eauto.
  - intros out tmp_out names' Hrun.
    destruct (WarpReduce_OK_inv A k reduce_type output_name Hrank _ _ _ Hrun)
      as (Hk & sizes & Hsizes).
    destruct (WarpReduce_valid A k reduce_type output_name Hrank names sizes)
      as (tmp_name & out_name & names2 & Hrun'); [done..|].
    simpl in Hrun'. rewrite Hrun in Hrun'. injection Hrun' as -> -> ->.
    assert (Hlen : length sizes = Z.to_nat k).
    { rewrite <- (length_fmap (Const (Int 32)) sizes), <- Hsizes, length_drop.
      lia. }
    eexists sizes, _, _. split_and!; [done|lia|done| |].
    { intros env. apply eval_lane_product. }
    intros indexs e He.
    destruct (tmp_compute_inv A k reduce_type _ _ _ (proj1 Hk) He)
      as (leading & x & -> & Hleading).
    rewrite tmp_compute_leading in He by (done || lia).
    injection He as <-. eexists. split; [done|].
    remember (take (length (tensor_shape A) - Z.to_nat k) (tensor_shape A))
      as leading_shape eqn:Hleading_shape.
    assert (Hsplit : tensor_shape A = leading_shape ++ (Const (Int 32) <$> sizes)).
    { subst leading_shape. by rewrite <- Hsizes, take_drop. }
    assert (Hleading_len : length leading = length leading_shape).
    { subst leading_shape. rewrite length_take. lia. }
    rewrite <- Hlen. split.
    + intros env. rewrite Hsplit. by apply multiple_of_offset.
    + intros env Hshape Hindexs.
      apply Forall_app in Hindexs as [Hleading_denotes _].
      apply denotes_offset; [| |done|].
      * intros Hnil. apply (f_equal length) in Hnil. simpl in Hnil. lia.
      * intros Hnil. apply (f_equal length) in Hnil.
        rewrite length_app, length_replicate in Hnil. simpl in Hnil. lia.
      * apply Forall_app. split; [done|].
        apply Forall_replicate. by eexists.
Qed.

Lemma WarpReduce_lane_and_offsets_witness :
  let A := placeholder "A" [8; 64] in
  ∃ out tmp_out names' lane tmp_fn,
    WarpReduce (H := counter_collaborators) A 1 "cinn_warp_reduce_sum" "out"
      0%nat = OK ([out; tmp_out], names') ∧
    tensor_shape tmp_out = [Const (Int 32) 8; Const (Int 32) 32] ∧
    tensor_shape out = [Const (Int 32) 8] ∧
    tensor_fn tmp_out = Some tmp_fn ∧
    (∀ env, eval env lane = Some 64) ∧
    ∀ i x env, ∃ offset z,
      tmp_fn [Var_ i Undefined; Var_ x Undefined] =
        OK (Call "cinn_warp_reduce_sum" [Tensor_expr A; offset; lane]) ∧
      eval env offset = Some z ∧ (64 | z).
Proof.
  intros A.
  destruct (WarpReduce_lane_and_offsets (H := counter_collaborators) A 1
              "cinn_warp_reduce_sum" "out" 0%nat) as [_ Hcalls].
  - vm_compute. reflexivity.
  - edestruct Hcalls as (sizes & lane & tmp_fn & Hsizes & _ & Hfn & Hlane & Hcall);
      [reflexivity|].
    destruct sizes as [|s [|]]; try done. injection Hsizes as <-.
    eexists _, _, _, lane, tmp_fn.
    split_and!; [reflexivity|reflexivity|reflexivity|exact Hfn|exact Hlane|].
    intros i x env. injection Hfn as <-.
    edestruct (Hcall [Var_ i Undefined; Var_ x Undefined])
      as (offset & He & Hmult & Hdenotes); [reflexivity|].
    destruct (Hdenotes env) as [z Hz].
    + repeat constructor; by eexists.
    + repeat constructor; by eexists.
    + exists offset, z. split_and!; [|exact Hz|by apply (Hmult env)].
      rewrite <- He. reflexivity.
Defined.

(** ** Result shapes *)







(** * Further properties of the builders *)

(** ** Axis normaliser: when the result is duplicate-free, and fixed points *)

Lemma GetRealAxes_sorted_same_elements_witness :
  ∃ real_axes,
    GetRealAxes 4 [1; -1; 1] [] = OK real_axes ∧
    Sorted Z.le real_axes ∧
    ∀ x, x ∈ real_axes ↔ x ∈ python_index 4 <$> [1; -1; 1].
Proof.
  apply (GetRealAxes_sorted_same_elements 4 [1; -1; 1]).
  - lia.
  - vm_compute. intuition congruence.
  - repeat constructor; vm_compute; congruence.
  - done.
  - repeat constructor; vm_compute; congruence.
Defined.

(** On a non-decreasing vector [std::unique] leaves a strictly increasing
    one. *)
Lemma unique_strictly_sorted (v : list Z) :
  StronglySorted Z.le v → StronglySorted Z.lt (unique v).
Proof.
  induction v as [|a [|b t] IH]; intros Hsorted.
  - constructor.
  - repeat constructor.
  - change (unique (a :: b :: t))
      with (if a =? b then unique (b :: t) else a :: unique (b :: t)).
    apply StronglySorted_cons in Hsorted as [Hle Hrest].
    destruct (Z.eqb_spec a b) as [->|Hne]; [by apply IH|].
    apply StronglySorted_cons. split; [|by apply IH].
    apply Forall_forall. intros x Hx.
    apply (proj1 (elem_of_unique _ _)) in Hx.
    apply StronglySorted_cons in Hrest as [Hb _].
    inversion Hle as [|? ? Hab Ht]; subst.
    apply elem_of_cons in Hx as [->|Hx]; [lia|].
    pose proof (proj1 (Forall_forall _ _) Hb x Hx). simpl in *. lia.
Qed.

(** On a strictly increasing vector [std::unique] changes nothing. *)
Lemma unique_id (v : list Z) : StronglySorted Z.lt v → unique v = v.
Proof.
  induction v as [|a [|b t] IH]; intros Hsorted; [done..|].
  change (unique (a :: b :: t))
    with (if a =? b then unique (b :: t) else a :: unique (b :: t)).
  apply StronglySorted_cons in Hsorted as [Hlt Hrest].
  inversion Hlt; subst.
  destruct (Z.eqb_spec a b); [lia|]. f_equal. by apply IH.
Qed.

Lemma StronglySorted_lt_le (v : list Z) :
  StronglySorted Z.lt v → StronglySorted Z.le v.
Proof.
  induction 1 as [|a v Hv IH Ha]; constructor; [done|].
  eapply Forall_impl; [exact Ha|]. simpl. lia.
Qed.

Lemma StronglySorted_lt_NoDup (v : list Z) : StronglySorted Z.lt v → NoDup v.
Proof.
  induction 1 as [|a v Hv IH Ha]; constructor; [|done].
  intros Hin. pose proof (proj1 (Forall_forall _ _) Ha a Hin). lia.
Qed.

(** [std::sort] changes nothing on a non-decreasing vector. *)
Lemma sort_id (v : list Z) : StronglySorted Z.le v → sort v = v.
Proof.
  intros Hsorted. unfold sort.
  apply (StronglySorted_unique Z.le); [|done|apply merge_sort_Permutation].
  apply (StronglySorted_merge_sort Z.le).
Qed.

(** X2: if the adjusted axes of a valid non-empty list come in non-decreasing
    order, the normaliser returns them with each run of equal axes reduced to
    one: a strictly increasing list, without duplicates. *)
Theorem GetRealAxes_ordered_input ndim axes :
  0 < ndim → is_int ndim → Forall is_int axes → axes ≠ [] →
  Forall (λ a, 0 ≤ python_index ndim a ≤ ndim) axes →
  StronglySorted Z.le (python_index ndim <$> axes) →
  ∃ real_axes,
    GetRealAxes ndim axes [] = OK real_axes ∧
    real_axes = unique (python_index ndim <$> axes) ∧
    StronglySorted Z.lt real_axes ∧
    NoDup real_axes.
Proof.
  intros Hpos Hndim Hint Hne Hrange Hsorted.
  pose proof (unique_strictly_sorted _ Hsorted) as Hstrict.
  exists (unique (python_index ndim <$> axes)).
  split_and!; [|done|done|by apply StronglySorted_lt_NoDup].
  destruct axes as [|a axes]; [done|].
  unfold GetRealAxes. rewrite push_axes_valid by done. simpl.
  f_equal. apply sort_id. by apply StronglySorted_lt_le.
Qed.

Lemma GetRealAxes_ordered_input_witness :
  ∃ real_axes,
    GetRealAxes 4 [-3; 1; 3; -1] [] = OK real_axes ∧
    real_axes = unique (python_index 4 <$> [-3; 1; 3; -1]) ∧
    StronglySorted Z.lt real_axes ∧
    NoDup real_axes.
Proof.
  apply (GetRealAxes_ordered_input 4 [-3; 1; 3; -1]).
  - lia.
  - vm_compute. intuition congruence.
  - repeat constructor; vm_compute; congruence.
  - done.
  - repeat constructor; vm_compute; congruence.
  - repeat constructor; vm_compute; congruence.
Defined.

Lemma GetRealAxes_increasing_id ndim real_axes :
  0 < ndim → is_int ndim → real_axes ≠ [] →
  Forall (λ a, 0 ≤ a ≤ ndim) real_axes →
  StronglySorted Z.lt real_axes →
  GetRealAxes ndim real_axes [] = OK real_axes.
Proof.
  intros Hpos Hndim Hne Hrange Hsorted.
  assert (Hid : python_index ndim <$> real_axes = real_axes).
  { clear Hne Hsorted. induction Hrange as [|a l Ha Hl IH]; [done|].
    csimpl. rewrite IH. f_equal. unfold python_index.
    destruct (Z.ltb_spec a 0); [lia|done]. }
  assert (Hint : Forall is_int real_axes).
  { eapply Forall_impl; [exact Hrange|]. unfold is_int in *. simpl. lia. }
  assert (Hvalid : Forall (λ a, 0 ≤ python_index ndim a ≤ ndim) real_axes).
  { eapply Forall_impl; [exact Hrange|]. intros a Ha. simpl in *.
    unfold python_index. destruct (Z.ltb_spec a 0); lia. }
  destruct real_axes as [|a l]; [done|].
  unfold GetRealAxes. rewrite push_axes_valid by done.
  rewrite Hid, app_nil_l. cbn [mbind result_bind].
  rewrite unique_id by done.
  f_equal. apply sort_id. by apply StronglySorted_lt_le.
Qed.

(** X3: a non-empty, strictly increasing list of axes within [0, ndim] is a
    fixed point of the normaliser. *)
Theorem GetRealAxes_fixed_point ndim real_axes :
  0 < ndim → is_int ndim → real_axes ≠ [] →
  Forall (λ a, 0 ≤ a ≤ ndim) real_axes →
  StronglySorted Z.lt real_axes →
  GetRealAxes ndim real_axes [] = OK real_axes.
Proof. apply GetRealAxes_increasing_id. Qed.

Lemma GetRealAxes_fixed_point_witness : GetRealAxes 4 [1; 3] [] = OK [1; 3].
Proof.
  apply (GetRealAxes_fixed_point 4 [1; 3]).
  - lia.
  - vm_compute. intuition congruence.
  - done.
  - repeat constructor; vm_compute; congruence.
  - repeat constructor; vm_compute; congruence.
Defined.

(** X4: on a list of raw axes none of which stays negative after the
    adjustment, the normaliser does the same as on the adjusted axes: a
    negative axis and the index it denotes are interchangeable. *)
Theorem GetRealAxes_negative_axes ndim axes :
  0 < ndim → is_int ndim → Forall is_int axes →
  Forall (λ a, 0 ≤ python_index ndim a) axes →
  GetRealAxes ndim axes [] = GetRealAxes ndim (python_index ndim <$> axes) [].
Proof.
  intros Hpos Hndim Hint Hnonneg.
  assert (Hidem : python_index ndim <$> (python_index ndim <$> axes) =
                  python_index ndim <$> axes).
  { clear Hint. induction Hnonneg as [|a l Ha Hl IH]; [done|].
    csimpl. rewrite IH. f_equal. unfold python_index at 1.
    destruct (Z.ltb_spec (python_index ndim a) 0); [lia|done]. }
  assert (Hint' : Forall is_int (python_index ndim <$> axes)).
  { apply Forall_fmap. eapply Forall_impl; [exact Hint|].
    intros a Ha. simpl. unfold python_index, is_int in *.
    destruct (Z.ltb_spec a 0); lia. }
  destruct axes as [|a0 axes0]; [done|].
  set (axes := a0 :: axes0) in *.
  change (GetRealAxes ndim axes [])
    with (real_axes ← push_axes ndim axes []; OK (sort (unique real_axes))).
  change (GetRealAxes ndim (python_index ndim <$> axes) [])
    with (real_axes ← push_axes ndim (python_index ndim <$> axes) [];
          OK (sort (unique real_axes))).
  destruct (decide (Forall (λ a, 0 ≤ python_index ndim a ≤ ndim) axes))
    as [Hvalid|Hinvalid].
  - assert (Hvalid' : Forall (λ a, 0 ≤ python_index ndim a ≤ ndim)
                        (python_index ndim <$> axes)).
    { rewrite Forall_fmap. eapply Forall_impl; [exact Hvalid|].
      intros a Ha. simpl in *. unfold python_index at 1 3.
      destruct (Z.ltb_spec (python_index ndim a) 0); lia. }
    rewrite (push_axes_valid ndim Hpos Hndim axes) by done.
    rewrite (push_axes_valid ndim Hpos Hndim (python_index ndim <$> axes))
      by done.
    by rewrite Hidem.
  - apply not_Forall_Exists in Hinvalid; [|intros a; apply _].
    assert (Hbad : Exists (λ a, python_index ndim a < 0 ∨
                                ndim < python_index ndim a) axes).
    { eapply Exists_impl; [exact Hinvalid|]. intros a Ha. simpl in *. lia. }
    assert (Hbad' : Exists (λ a, python_index ndim a < 0 ∨
                                 ndim < python_index ndim a)
                      (python_index ndim <$> axes)).
    { rewrite Exists_fmap.
      apply Exists_exists in Hbad as (a & Hin & Ha).
      apply Exists_exists. exists a. split; [done|]. simpl.
      pose proof (proj1 (Forall_forall _ _) Hnonneg a Hin) as Hge.
      simpl in Hge. unfold python_index at 1 3.
      destruct (Z.ltb_spec (python_index ndim a) 0); lia. }
    rewrite (push_axes_invalid ndim Hpos Hndim axes) by done.
    by rewrite (push_axes_invalid ndim Hpos Hndim (python_index ndim <$> axes))
      by done.
Qed.

Lemma GetRealAxes_negative_axes_witness :
  GetRealAxes 4 [-1; 1; -3] [] = GetRealAxes 4 (python_index 4 <$> [-1; 1; -3]) [].
Proof.
  apply (GetRealAxes_negative_axes 4 [-1; 1; -3]).
  - lia.
  - vm_compute. intuition congruence.
  - repeat constructor; vm_compute; congruence.
  - repeat constructor; vm_compute; congruence.
Defined.

(** ** Facade: which requests succeed, and how the others fail *)

Lemma GetRealAxes_failure ndim axes real_axes e :
  GetRealAxes ndim axes real_axes = Error e → e = InvalidAxis.
Proof.
  destruct axes as [|a axes].
  - by rewrite GetRealAxes_empty.
  - unfold GetRealAxes.
    destruct (push_axes ndim (a :: axes) real_axes) as [r|e'] eqn:Hpush;
      [done|].
    intros [= <-]. by eapply push_axes_failure.
Qed.

Section make_reduce_axes_facts.
Context `{Collaborators}.
Variable tensor : Tensor.
Let ndim := Z.of_nat (length (tensor_shape tensor)).

Lemma vec_at_int_in_range axis :
  0 ≤ axis < ndim → ∃ bound, vec_at_int (tensor_shape tensor) axis = OK bound.
Proof.
  intros Haxis. unfold vec_at_int, vec_at.
  destruct (Z.ltb_spec axis 0); [lia|].
  destruct (lookup_lt_is_Some_2 (tensor_shape tensor) (Z.to_nat axis))
    as [bound ->]; [subst ndim; lia|eauto].
Qed.

Lemma vec_at_int_out_of_range axis :
  axis < 0 ∨ ndim ≤ axis →
  vec_at_int (tensor_shape tensor) axis = Error OutOfRange.
Proof.
  intros Haxis. unfold vec_at_int, vec_at.
  destruct (Z.ltb_spec axis 0); [done|].
  rewrite lookup_ge_None_2; [done|]. subst ndim. lia.
Qed.

Lemma make_reduce_axes_failure real_axes acc names e :
  make_reduce_axes tensor real_axes acc names = Error e → e = OutOfRange.
Proof.
  revert acc names. induction real_axes as [|axis rest IH]; intros acc names;
    simpl; [done|].
  destruct (UniqName "kk" names) as [name names1].
  unfold vec_at_int, vec_at.
  destruct (axis <? 0); simpl; [by intros [= <-]|].
  destruct (tensor_shape tensor !! Z.to_nat axis); simpl;
    [apply IH | by intros [= <-]].
Qed.

Lemma make_reduce_axes_in_range real_axes acc names :
  Forall (λ a, 0 ≤ a < ndim) real_axes →
  ∃ reduce_axes names',
    make_reduce_axes tensor real_axes acc names = OK (reduce_axes, names').
Proof.
  intros Hrange. revert acc names.
  induction Hrange as [|axis rest Haxis Hrest IH]; intros acc names; simpl;
    [eauto|].
  destruct (UniqName "kk" names) as [name names1].
  destruct (vec_at_int_in_range axis Haxis) as [bound ->]. simpl. apply IH.
Qed.

Lemma make_reduce_axes_out_of_range real_axes acc names :
  Exists (λ a, a < 0 ∨ ndim ≤ a) real_axes →
  make_reduce_axes tensor real_axes acc names = Error OutOfRange.
Proof.
  intros Hbad. revert acc names.
  induction Hbad as [axis rest Haxis|axis rest Hrest IH]; intros acc names;
    simpl; destruct (UniqName "kk" names) as [name names1].
  - by rewrite vec_at_int_out_of_range.
  - destruct (vec_at_int (tensor_shape tensor) axis) as [bound|e] eqn:Hbound;
      simpl; [apply IH|].
    unfold vec_at_int, vec_at in Hbound. repeat case_match; congruence.
Qed.

End make_reduce_axes_facts.

(** X7: the facade fails with [InvalidRank] exactly on a tensor of rank 0,
    and its other failures are [InvalidAxis] or an access outside the shape:
    never the failures of the warp path. *)
Theorem Reduce_failures `{Collaborators} tensor axes fn keep_dims initial
    output_name names :
  (Reduce tensor axes fn keep_dims initial output_name names =
     Error InvalidRank ↔ tensor_shape tensor = []) ∧
  (∀ e, Reduce tensor axes fn keep_dims initial output_name names = Error e →
        e = InvalidRank ∨ e = InvalidAxis ∨ e = OutOfRange).
Proof.
  assert (Hsteps : ∀ e,
    (real_axes ← GetRealAxes
       (to_int (Z.of_nat (length (tensor_shape tensor)))) axes [];
     output_shapes ← GetOutputShape real_axes [] tensor keep_dims;
     DoReduce tensor fn output_shapes real_axes
       (if keep_dims then [] else real_axes) initial output_name names)
    = Error e → e = InvalidAxis ∨ e = OutOfRange).
  { intros e.
    destruct (GetRealAxes _ axes []) as [real_axes|e'] eqn:Haxes; simpl.
    - rewrite GetOutputShape_eq. simpl. unfold DoReduce.
      destruct (make_reduce_axes tensor real_axes [] names)
        as [[reduce_axes names1]|e'] eqn:Hvars; simpl; [done|].
      intros [= <-]. right. by eapply make_reduce_axes_failure.
    - intros [= <-]. left. by eapply GetRealAxes_failure. }
  unfold Reduce.
  destruct (tensor_shape tensor) as [|s shape] eqn:Hshape; simpl.
  - split; [done|]. intros e [= <-]. by left.
  - destruct (Z.gtb_spec (Z.of_nat (S (length shape))) 0); [|lia]. simpl.
    split.
    + split; [|done]. intros Herr. apply Hsteps in Herr as [|]; done.
    + intros e He. right. by apply Hsteps.
Qed.

Lemma GetRealAxes_valid_result ndim axes :
  0 < ndim → is_int ndim → Forall is_int axes →
  Forall (λ a, 0 ≤ python_index ndim a ≤ ndim) axes →
  ∃ real_axes,
    GetRealAxes ndim axes [] = OK real_axes ∧
    ∀ x, x ∈ real_axes ↔ x ∈ reduction_axes ndim axes.
Proof.
  intros Hpos Hndim Hint Hrange. destruct axes as [|a axes].
  - rewrite GetRealAxes_empty. eauto.
  - exists (sort (unique (python_index ndim <$> a :: axes))). split.
    + unfold GetRealAxes. by rewrite push_axes_valid.
    + intros x. unfold sort, reduction_axes.
      rewrite merge_sort_Permutation. apply elem_of_unique.
Qed.

Lemma keep_dims_shape_ext axes1 axes2 shape :
  (∀ x, x ∈ axes1 ↔ x ∈ axes2) →
  keep_dims_shape axes1 shape = keep_dims_shape axes2 shape.
Proof.
  intros Hext. apply imap_ext. intros i size _. simpl.
  destruct (decide (reduced axes1 i)) as [H1|H1];
    destruct (decide (reduced axes2 i)) as [H2|H2]; try done;
    unfold reduced in *; by apply Hext in H1 || by apply Hext in H2.
Qed.

Lemma non_reduced_sizes_ext axes1 axes2 shape :
  (∀ x, x ∈ axes1 ↔ x ∈ axes2) →
  non_reduced_sizes axes1 shape = non_reduced_sizes axes2 shape.
Proof.
  intros Hext. unfold non_reduced_sizes. f_equal.
  apply list_filter_iff. intros [i size]. unfold reduced. simpl.
  by rewrite Hext.
Qed.

Section Reduce_requests.
Context `{Collaborators}.
Variables (tensor : Tensor) (axes : list Z).
Variables (fn : Expr → list Var → Expr → Expr) (keep_dims : bool).
Variables (initial : Expr) (output_name : string) (names : NameGen).
Let shape := tensor_shape tensor.
Let ndim := Z.of_nat (length shape).

Hypothesis rank_positive : 0 < ndim.
Hypothesis rank_fits_int : ndim < 2 ^ 31.
Hypothesis axes_int : Forall is_int axes.

Lemma rank_as_int : to_int ndim = ndim ∧ is_int ndim.
Proof.
  assert (is_int ndim) by (unfold is_int; lia).
  split; [by apply to_int_id | done].
Qed.

(** An adjusted axis equal to the rank is let through by the normaliser; the
    builder then reads the shape outside its bounds. *)
Lemma Reduce_axis_at_rank :
  Forall (λ a, 0 ≤ python_index ndim a ≤ ndim) axes →
  ndim ∈ python_index ndim <$> axes →
  Reduce tensor axes fn keep_dims initial output_name names =
    Error OutOfRange.
Proof.
  intros Hrange Hin. destruct rank_as_int as [Hto_int Hint].
  destruct (GetRealAxes_valid_result ndim axes) as (real_axes & Haxes & Hmem);
    [done..|].
  unfold Reduce. fold shape ndim.
  destruct (Z.gtb_spec ndim 0); [|lia]. simpl.
  rewrite Hto_int, Haxes. simpl.
  rewrite GetOutputShape_eq. simpl. unfold DoReduce.
  rewrite make_reduce_axes_out_of_range; [done|].
  apply Exists_exists. exists ndim. split; [|fold shape ndim; lia].
  apply Hmem. by destruct axes; [apply elem_of_nil in Hin|].
Qed.

(** With every adjusted axis inside the shape the facade returns a tensor,
    named as asked, whose shape is read off the set of axes. *)
Lemma Reduce_in_range :
  Forall (λ a, 0 ≤ python_index ndim a < ndim) axes →
  ∃ C names',
    Reduce tensor axes fn keep_dims initial output_name names =
      OK (C, names') ∧
    tensor_name C = output_name ∧
    tensor_shape C =
      if keep_dims then keep_dims_shape (reduction_axes ndim axes) shape
      else at_least_rank_1 (non_reduced_sizes (reduction_axes ndim axes) shape).
Proof.
  intros Hrange. destruct rank_as_int as [Hto_int Hint].
  destruct (GetRealAxes_valid_result ndim axes) as (real_axes & Haxes & Hmem);
    [done..| |].
  { eapply Forall_impl; [exact Hrange|]. simpl. lia. }
  assert (Hreal : Forall (λ a, 0 ≤ a < ndim) real_axes).
  { apply Forall_forall. intros x Hx. apply Hmem in Hx.
    unfold reduction_axes in Hx. destruct axes as [|a0 axes0].
    - apply elem_of_seqZ in Hx. lia.
    - apply list_elem_of_fmap in Hx as (a & -> & Ha).
      by apply (proj1 (Forall_forall _ _) Hrange). }
  destruct (make_reduce_axes_in_range tensor real_axes [] names Hreal)
    as (reduce_axes & names' & Hvars).
  unfold Reduce. fold shape ndim.
  destruct (Z.gtb_spec ndim 0); [|lia]. simpl.
  rewrite Hto_int, Haxes. simpl.
  rewrite GetOutputShape_eq. simpl. unfold DoReduce. rewrite Hvars. simpl.
  eexists _, _. split_and!; [done..|]. simpl.
  destruct keep_dims.
  - rewrite (keep_dims_entries tensor real_axes rank_fits_int Hreal).
    fold shape. rewrite (keep_dims_shape_ext _ _ _ Hmem).
    destruct (keep_dims_shape _ shape) eqn:Hshape; [|done].
    apply (f_equal length) in Hshape. unfold keep_dims_shape in Hshape.
    rewrite length_imap in Hshape. simpl in Hshape. subst ndim. lia.
  - rewrite (squeezed_entries tensor real_axes rank_fits_int Hreal).
    fold shape. rewrite (non_reduced_sizes_ext _ _ _ Hmem).
    unfold at_least_rank_1. by destruct (non_reduced_sizes _ shape).
Qed.

End Reduce_requests.

(** X8: on a tensor of positive rank, an axis that the adjustment takes to
    the rank itself (one past the last dimension) passes the normaliser's
    checks, and the facade then fails in the builder, which reads the shape
    at that position. *)
Theorem Reduce_axis_equal_to_rank `{Collaborators} tensor axes fn keep_dims
    initial output_name names :
  let ndim := Z.of_nat (length (tensor_shape tensor)) in
  0 < ndim → ndim < 2 ^ 31 →
  Forall is_int axes →
  Forall (λ a, 0 ≤ python_index ndim a ≤ ndim) axes →
  ndim ∈ python_index ndim <$> axes →
  Reduce tensor axes fn keep_dims initial output_name names =
    Error OutOfRange.
Proof. intros ndim. apply Reduce_axis_at_rank. Qed.

Lemma Reduce_axis_equal_to_rank_witness :
  ReduceSum (H := counter_collaborators) (placeholder "A" [2; 3; 4]) [1; 3]
    false Undefined "C" 0%nat = Error OutOfRange.
Proof.
  apply (Reduce_axis_equal_to_rank (H := counter_collaborators)
           (placeholder "A" [2; 3; 4]) [1; 3]).
  - vm_compute. reflexivity.
  - vm_compute. reflexivity.
  - repeat constructor; vm_compute; congruence.
  - repeat constructor; vm_compute; congruence.
  - vm_compute. right. left.
Defined.

(** X9: on a tensor of positive rank and a list of axes (empty, negative and
    repeated axes included) whose adjusted values all index a dimension, the
    facade returns a tensor with the requested name; its shape is the input
    shape with 1 at the reduced dimensions when dimensions are kept, and the
    sizes of the other dimensions, or the single size 1, when they are not. *)
Theorem Reduce_valid_request `{Collaborators} tensor axes fn keep_dims initial
    output_name names :
  let shape := tensor_shape tensor in
  let ndim := Z.of_nat (length shape) in
  0 < ndim → ndim < 2 ^ 31 →
  Forall is_int axes →
  Forall (λ a, 0 ≤ python_index ndim a < ndim) axes →
  ∃ C names',
    Reduce tensor axes fn keep_dims initial output_name names =
      OK (C, names') ∧
    tensor_name C = output_name ∧
    tensor_shape C =
      if keep_dims then keep_dims_shape (reduction_axes ndim axes) shape
      else at_least_rank_1 (non_reduced_sizes (reduction_axes ndim axes) shape).
Proof. intros shape ndim. apply Reduce_in_range. Qed.

Lemma Reduce_valid_request_witness :
  ∃ C names',
    ReduceMax (H := counter_collaborators) (placeholder "A" [2; 3; 4])
      [-2; 1] false Undefined "C" 0%nat = OK (C, names') ∧
    tensor_name C = "C" ∧
    tensor_shape C = [Const (Int 32) 2; Const (Int 32) 4].
Proof.
  apply (Reduce_valid_request (H := counter_collaborators)
           (placeholder "A" [2; 3; 4]) [-2; 1] _ false).
  - vm_compute. reflexivity.
  - vm_compute. reflexivity.
  - repeat constructor; vm_compute; congruence.
  - repeat constructor; vm_compute; congruence.
Defined.

(** ** Builder: the input index tuple in closed form *)

Lemma reduced_between_step real_axes i n :
  (i < n)%nat →
  reduced_between real_axes i n =
  ((if decide (reduced real_axes i) then 1 else 0) +
   reduced_between real_axes (S i) n)%nat.
Proof.
  intros Hlt. unfold reduced_between.
  replace (n - i)%nat with (S (n - S i)) by lia.
  simpl. rewrite filter_cons. by destruct (decide (reduced real_axes i)).
Qed.

Lemma passed_between_step real_axes squeeze_axes i n :
  (i < n)%nat →
  passed_between real_axes squeeze_axes i n =
  ((if decide (reduced real_axes i ∧ reduced squeeze_axes i) then 0 else 1) +
   passed_between real_axes squeeze_axes (S i) n)%nat.
Proof.
  intros Hlt. unfold passed_between.
  replace (n - i)%nat with (S (n - S i)) by lia.
  simpl. rewrite filter_cons.
  destruct (decide (reduced real_axes i ∧ reduced squeeze_axes i)).
  - by rewrite decide_False by tauto.
  - by rewrite decide_True by tauto.
Qed.

Lemma reduced_between_empty real_axes i : reduced_between real_axes i i = 0%nat.
Proof. unfold reduced_between. by rewrite Nat.sub_diag. Qed.

Lemma passed_between_empty real_axes squeeze_axes i :
  passed_between real_axes squeeze_axes i i = 0%nat.
Proof. unfold passed_between. by rewrite Nat.sub_diag. Qed.

Section fill_slots_facts.
Variables (real_axes squeeze_axes : list Z).
Variables (indices : list Expr) (reduce_axes : list Var).

Local Abbreviation slots :=
  (fill_slots real_axes squeeze_axes indices reduce_axes).

(** How one dimension moves the cursors. *)
Lemma fill_slot_cursors i c e c' :
  fill_slot real_axes squeeze_axes indices reduce_axes i c e c' →
  c'.2 = (c.2 + if decide (reduced real_axes i) then 1 else 0)%nat ∧
  c'.1 = (c.1 + if decide (reduced real_axes i ∧ reduced squeeze_axes i)
                then 0 else 1)%nat ∧
  Some e = if decide (reduced real_axes i)
           then Var_expr <$> reduce_axes !! c.2
           else indices !! c.1.
Proof.
  intros Hslot. inversion Hslot as [ic rc v Hred Hv|ic rc e' Hred He]; subst;
    simpl; rewrite ?Hv, ?He; repeat case_decide; try tauto;
    (split_and!; [lia|lia|done]).
Qed.

(** The slot of every dimension, read off the positions before it. *)
Lemma fill_slots_lookup n i c es c' :
  slots n i c es c' →
  ∀ j, (i ≤ j < n)%nat →
    es !! (j - i)%nat =
      if decide (reduced real_axes j)
      then Var_expr <$>
             reduce_axes !! (c.2 + reduced_between real_axes i j)%nat
      else indices !! (c.1 + passed_between real_axes squeeze_axes i j)%nat.
Proof.
  induction 1 as [c|i c e c1 es c2 Hlt Hslot Hrest IH]; intros j Hj; [lia|].
  apply fill_slot_cursors in Hslot as (Hred & Hpass & He).
  destruct (decide (j = i)) as [->|Hne].
  - rewrite Nat.sub_diag, reduced_between_empty, passed_between_empty,
      !Nat.add_0_r. simpl. by rewrite He.
  - replace (j - i)%nat with (S (j - S i)) by lia. simpl.
    rewrite IH by lia.
    rewrite (reduced_between_step real_axes i j) by lia.
    rewrite (passed_between_step real_axes squeeze_axes i j) by lia.
    rewrite Hred, Hpass, !Nat.add_assoc. done.
Qed.

(** Where the cursors end. *)
Lemma fill_slots_end n i c es c' :
  slots n i c es c' →
  length es = (n - i)%nat ∧
  c'.2 = (c.2 + reduced_between real_axes i n)%nat ∧
  c'.1 = (c.1 + passed_between real_axes squeeze_axes i n)%nat.
Proof.
  induction 1 as [c|i c e c1 es c2 Hlt Hslot Hrest (IHlen & IHred & IHpass)].
  - rewrite Nat.sub_diag, reduced_between_empty, passed_between_empty.
    split_and!; simpl; lia.
  - apply fill_slot_cursors in Hslot as (Hred & Hpass & _).
    rewrite (reduced_between_step real_axes i n) by lia.
    rewrite (passed_between_step real_axes squeeze_axes i n) by lia.
    simpl. lia.
Qed.

(** With enough reduction variables and output indices the description has a
    run. *)
Lemma fill_slots_exist n k i c :
  (i + k = n)%nat →
  (c.2 + reduced_between real_axes i n ≤ length reduce_axes)%nat →
  (c.1 + passed_between real_axes squeeze_axes i n ≤ length indices)%nat →
  ∃ es c', slots n i c es c'.
Proof.
  revert i c. induction k as [|k IH]; intros i [ic rc] Hk Hvars Hidx.
  - replace i with n by lia. eexists _, _. constructor.
  - rewrite (reduced_between_step real_axes i n) in Hvars by lia.
    rewrite (passed_between_step real_axes squeeze_axes i n) in Hidx by lia.
    simpl in *.
    destruct (decide (reduced real_axes i)) as [Hred|Hred].
    + destruct (lookup_lt_is_Some_2 reduce_axes rc) as [v Hv]; [lia|].
      edestruct (IH (S i)
                   (if decide (reduced squeeze_axes i) then ic else S ic,
                    S rc)) as (es & c' & Hrun); [lia|simpl; lia| |].
      { simpl. destruct (decide (reduced squeeze_axes i)).
        - rewrite decide_True in Hidx by tauto. lia.
        - rewrite decide_False in Hidx by tauto. lia. }
      eexists _, _. econstructor; [lia| |exact Hrun]. by constructor.
    + rewrite decide_False in Hidx by tauto.
      destruct (lookup_lt_is_Some_2 indices ic) as [e He]; [lia|].
      edestruct (IH (S i) (S ic, rc)) as (es & c' & Hrun);
        [lia|simpl; lia|simpl; lia|].
      eexists _, _. econstructor; [lia| |exact Hrun]. by constructor.
Qed.

End fill_slots_facts.

Lemma size_list_to_set_le (l : list Z) :
  (size (list_to_set l : gset Z) ≤ length l)%nat.
Proof.
  induction l as [|a l IH]; [done|].
  rewrite list_to_set_cons, size_union_alt, size_singleton. simpl.
  pose proof (subseteq_size (list_to_set l ∖ {[a]}) (list_to_set l : gset Z))
    as Hsub.
  assert (list_to_set l ∖ {[a]} ⊆ (list_to_set l : gset Z)) as Hincl
    by (intros x Hx; by apply elem_of_difference in Hx as [? _]).
  specialize (Hsub Hincl). lia.
Qed.

(** The reduced dimensions of a shape are as many as the distinct axes. *)
Lemma reduced_between_all real_axes (n : nat) :
  Forall (λ a, 0 ≤ a < Z.of_nat n) real_axes →
  reduced_between real_axes 0 n = size (list_to_set real_axes : gset Z).
Proof.
  intros Hrange. unfold reduced_between. rewrite Nat.sub_0_r.
  rewrite <- (count_positions_in (list_to_set real_axes) n).
  - f_equal. apply filter_ext_elem_of. intros i _. unfold reduced.
    by rewrite elem_of_list_to_set.
  - intros x Hx. apply elem_of_list_to_set in Hx.
    by apply (proj1 (Forall_forall _ _) Hrange).
Qed.

(** In a strictly increasing list of axes, a reduced dimension stands at the
    position given by the number of reduced dimensions before it. *)
Lemma sorted_axis_position real_axes (j : nat) :
  StronglySorted Z.lt real_axes →
  Forall (λ a, 0 ≤ a) real_axes →
  reduced real_axes j →
  real_axes !! reduced_between real_axes 0 j = Some (Z.of_nat j).
Proof.
  intros Hsorted Hnonneg Hred. unfold reduced in Hred.
  apply list_elem_of_split in Hred as (l1 & l2 & ->).
  apply StronglySorted_app in Hsorted as (Hcross & Hl1 & Hl2).
  apply StronglySorted_cons in Hl2 as [Hafter _].
  apply Forall_app in Hnonneg as [Hl1_nonneg _].
  assert (Hcount : reduced_between (l1 ++ Z.of_nat j :: l2) 0 j = length l1).
  { unfold reduced_between. rewrite Nat.sub_0_r.
    rewrite <- (size_list_to_set (C := gset Z) l1)
      by (by apply StronglySorted_lt_NoDup).
    rewrite <- (count_positions_in (list_to_set l1) j).
    - f_equal. apply filter_ext_elem_of. intros d Hd.
      apply elem_of_seq in Hd. unfold reduced.
      rewrite elem_of_list_to_set, elem_of_app, elem_of_cons.
      split; [|tauto]. intros [Hin|[Heq|Hin]]; [done|lia|].
      pose proof (proj1 (Forall_forall _ _) Hafter _ Hin). simpl in *. lia.
    - intros x Hx. apply elem_of_list_to_set in Hx.
      pose proof (proj1 (Forall_forall _ _) Hl1_nonneg _ Hx). simpl in *.
      specialize (Hcross x (Z.of_nat j) Hx). 
      assert (x < Z.of_nat j) by (apply Hcross; left). lia. }
  rewrite Hcount. by apply list_lookup_middle.
Qed.

Section DoReduce_closed_form.
Context `{Collaborators}.
Variables (tensor : Tensor) (fn : Expr → list Var → Expr → Expr).
Variables (output_shape : list Expr) (real_axes squeeze_axes : list Z).
Variables (initial : Expr) (output_name : string).
Variables (names : NameGen) (C : Tensor) (names' : NameGen).
Let shape := tensor_shape tensor.
Let ndim := length shape.

Hypothesis rank_fits_int : Z.of_nat ndim < 2 ^ 31.
Hypothesis squeeze_axes_int : Forall is_int squeeze_axes.
Hypothesis built :
  DoReduce tensor fn output_shape real_axes squeeze_axes initial output_name
    names = OK (C, names').

(** What the builder did: the variables it made and the function it kept. *)
Lemma DoReduce_built :
  ∃ reduce_axes,
    tensor_fn C = Some (DoReduce_compute tensor fn real_axes squeeze_axes
                          initial reduce_axes) ∧
    Forall2 (λ axis v, 0 ≤ axis ∧
               shape !! Z.to_nat axis = Some (var_upper_bound v))
      real_axes reduce_axes.
Proof.
  unfold DoReduce in built.
  apply bind_OK_inv in built as ([reduce_axes names1] & Haxes & Hrun).
  injection Hrun as <- <-.
  apply make_reduce_axes_bounds in Haxes as (new & -> & Hnew).
  by exists new.
Qed.

Lemma built_axes_in_range reduce_axes :
  Forall2 (λ axis v, 0 ≤ axis ∧
             shape !! Z.to_nat axis = Some (var_upper_bound v))
    real_axes reduce_axes →
  Forall (λ a, 0 ≤ a < Z.of_nat ndim) real_axes.
Proof.
  intros Hvars. apply Forall_forall. intros a Ha.
  apply list_elem_of_lookup in Ha as [k Hk].
  destruct (Forall2_lookup_l _ _ _ _ _ Hvars Hk) as (v & _ & Hnonneg & Hsize).
  apply lookup_lt_Some in Hsize. fold ndim in Hsize. lia.
Qed.

Lemma built_axes_int reduce_axes :
  Forall2 (λ axis v, 0 ≤ axis ∧
             shape !! Z.to_nat axis = Some (var_upper_bound v))
    real_axes reduce_axes →
  Forall is_int real_axes.
Proof.
  intros Hvars. eapply Forall_impl; [by eapply built_axes_in_range|].
  unfold is_int. simpl. lia.
Qed.

(** The input index tuple of an element, slot by slot. *)
Lemma DoReduce_compute_slots reduce_axes indices e :
  Forall is_int real_axes →
  DoReduce_compute tensor fn real_axes squeeze_axes initial reduce_axes
    indices = OK e →
  ∃ eval_indice,
    e = fn (Tensor_call tensor eval_indice) reduce_axes initial ∧
    length eval_indice = ndim ∧
    ∀ j, (j < ndim)%nat →
      eval_indice !! j =
        if decide (reduced real_axes j)
        then Var_expr <$> reduce_axes !! reduced_between real_axes 0 j
        else indices !! passed_between real_axes squeeze_axes 0 j.
Proof.
  intros Hreal Hcompute. unfold DoReduce_compute in Hcompute.
  apply bind_OK_inv in Hcompute as ([[eval_indice ic] rc] & Hloop & He).
  injection He as <-.
  apply eval_indice_loop_slots in Hloop; [|done..].
  exists eval_indice. split_and!; [done| |].
  - apply fill_slots_end in Hloop as (Hlen & _). fold shape ndim in Hlen. lia.
  - intros j Hj.
    pose proof (fill_slots_lookup _ _ _ _ _ _ _ _ _ Hloop j) as Hslot.
    rewrite Nat.sub_0_r in Hslot. apply Hslot. fold shape ndim. lia.
Qed.

(** An element is defined as soon as the output index tuple has an entry for
    every dimension that is not both reduced and squeezed. *)
Lemma DoReduce_compute_defined reduce_axes indices :
  Forall2 (λ axis v, 0 ≤ axis ∧
             shape !! Z.to_nat axis = Some (var_upper_bound v))
    real_axes reduce_axes →
  (passed_between real_axes squeeze_axes 0 ndim ≤ length indices)%nat →
  ∃ e, DoReduce_compute tensor fn real_axes squeeze_axes initial reduce_axes
         indices = OK e.
Proof.
  intros Hvars Hlen.
  destruct (fill_slots_exist real_axes squeeze_axes indices reduce_axes
              ndim ndim 0 (0%nat, 0%nat)) as (es & [ic rc] & Hrun);
    [lia| |done|].
  { simpl. rewrite (reduced_between_all real_axes ndim)
      by (by eapply built_axes_in_range).
    rewrite <- (Forall2_length _ _ _ Hvars). apply size_list_to_set_le. }
  apply eval_indice_loop_slots in Hrun;
    [|done|by eapply built_axes_int|done].
  unfold DoReduce_compute. rewrite Hrun. simpl. eauto.
Qed.

End DoReduce_closed_form.

(** With no dimension squeezed every dimension has a position in the output
    index tuple. *)
Lemma passed_between_no_squeeze real_axes j :
  passed_between real_axes [] 0 j = j.
Proof.
  unfold passed_between. rewrite Nat.sub_0_r.
  transitivity (length (seq 0 j)); [|apply length_seq]. f_equal.
  induction (seq 0 j) as [|d l IH]; [done|].
  rewrite filter_cons, decide_True, IH; [done|].
  unfold reduced. intros [_ Hin]. by apply elem_of_nil in Hin.
Qed.

(** With the reduced dimensions squeezed only the others have one. *)
Lemma passed_between_squeeze_reduced real_axes j :
  (passed_between real_axes real_axes 0 j +
   reduced_between real_axes 0 j = j)%nat.
Proof.
  unfold passed_between, reduced_between. rewrite Nat.sub_0_r.
  pose proof (length_filter_complement (reduced real_axes) (seq 0 j)) as Hc.
  rewrite length_seq in Hc.
  rewrite (filter_ext_elem_of _ (λ d, ¬ reduced real_axes d)); [lia|].
  intros d _. tauto.
Qed.

Lemma reduced_between_ext axes1 axes2 i j :
  (∀ x, x ∈ axes1 ↔ x ∈ axes2) →
  reduced_between axes1 i j = reduced_between axes2 i j.
Proof.
  intros Hext. unfold reduced_between. f_equal.
  apply list_filter_iff. intros d. unfold reduced. apply Hext.
Qed.

(** X13: the input index tuple of every element of the tensor built by
    [DoReduce] has one slot per input dimension; the slot of a reduced
    dimension holds the reduction variable numbered by the reduced dimensions
    before it, the slot of any other dimension the output index numbered by
    the dimensions before it that are not both reduced and squeezed. *)
Theorem DoReduce_index_tuple_closed_form `{Collaborators} tensor fn
    output_shape real_axes squeeze_axes initial output_name names C names' :
  let ndim := length (tensor_shape tensor) in
  Z.of_nat ndim < 2 ^ 31 →
  Forall is_int squeeze_axes →
  DoReduce tensor fn output_shape real_axes squeeze_axes initial output_name
    names = OK (C, names') →
  ∃ reduce_axes compute,
    tensor_fn C = Some compute ∧
    length reduce_axes = length real_axes ∧
    ∀ indices e,
      compute indices = OK e →
      ∃ eval_indice,
        e = fn (Tensor_call tensor eval_indice) reduce_axes initial ∧
        length eval_indice = ndim ∧
        ∀ j, (j < ndim)%nat →
          eval_indice !! j =
            if decide (reduced real_axes j)
            then Var_expr <$> reduce_axes !! reduced_between real_axes 0 j
            else indices !! passed_between real_axes squeeze_axes 0 j.
Proof.
  intros ndim Hrank Hsqueeze Hbuilt.
  destruct (DoReduce_built _ _ _ _ _ _ _ _ _ _ Hbuilt)
    as (reduce_axes & Hfn & Hvars).
  exists reduce_axes. eexists. split_and!; [exact Hfn| |].
  - symmetry. by eapply Forall2_length.
  - intros indices e He.
    eapply DoReduce_compute_slots; [done..| |exact He].
    by eapply built_axes_int.
Qed.

Lemma DoReduce_index_tuple_closed_form_witness :
  let A := placeholder "A" [2; 3; 4] in
  let fn := fold_call "reduce_sum" in
  ∃ C names' reduce_axes compute,
    DoReduce (H := counter_collaborators) A fn
      [Const (Int 32) 2; Const (Int 32) 4] [1] [1] (Const (Float 32) 0) "C"
      0%nat = OK (C, names') ∧
    tensor_fn C = Some compute ∧
    length reduce_axes = 1%nat ∧
    ∀ indices e,
      compute indices = OK e →
      ∃ eval_indice,
        e = fn (Tensor_call A eval_indice) reduce_axes (Const (Float 32) 0) ∧
        length eval_indice = 3%nat ∧
        ∀ j, (j < 3)%nat →
          eval_indice !! j =
            if decide (reduced [1] j)
            then Var_expr <$> reduce_axes !! reduced_between [1] 0 j
            else indices !! passed_between [1] [1] 0 j.
Proof.
  intros A fn. eexists _, _.
  edestruct (DoReduce_index_tuple_closed_form (H := counter_collaborators)
               A fn [Const (Int 32) 2; Const (Int 32) 4] [1] [1]
               (Const (Float 32) 0) "C" 0%nat)
    as (reduce_axes & compute & Hfn & Hlen & Hslots).
  - vm_compute. reflexivity.
  - repeat constructor; vm_compute; congruence.
  - reflexivity.
  - exists reduce_axes, compute.
    split_and!; [reflexivity|exact Hfn|exact Hlen|exact Hslots].
Defined.

(** X14: when the axes given to [DoReduce] are strictly increasing, as its
    contract asks, the slot of every reduced dimension holds a reduction
    variable that ranges over the size of that very dimension. *)
Theorem DoReduce_variable_ranges `{Collaborators} tensor fn output_shape
    real_axes squeeze_axes initial output_name names C names' :
  let shape := tensor_shape tensor in
  Z.of_nat (length shape) < 2 ^ 31 →
  StronglySorted Z.lt real_axes →
  Forall is_int squeeze_axes →
  DoReduce tensor fn output_shape real_axes squeeze_axes initial output_name
    names = OK (C, names') →
  ∃ reduce_axes compute,
    tensor_fn C = Some compute ∧
    ∀ indices e,
      compute indices = OK e →
      ∃ eval_indice,
        e = fn (Tensor_call tensor eval_indice) reduce_axes initial ∧
        ∀ j size,
          shape !! j = Some size →
          reduced real_axes j →
          ∃ v, eval_indice !! j = Some (Var_expr v) ∧
               v ∈ reduce_axes ∧
               var_upper_bound v = size.
Proof.
  intros shape Hrank Hsorted Hsqueeze Hbuilt.
  destruct (DoReduce_built _ _ _ _ _ _ _ _ _ _ Hbuilt)
    as (reduce_axes & Hfn & Hvars).
  pose proof (built_axes_in_range _ _ _ Hvars) as Hrange.
  pose proof (built_axes_int _ _ Hrank _ Hvars) as Hint.
  exists reduce_axes. eexists. split; [exact Hfn|].
  intros indices e He.
  destruct (DoReduce_compute_slots _ _ _ _ _ Hrank Hsqueeze _ _ _ Hint He)
    as (eval_indice & -> & Hlen & Hslots).
  exists eval_indice. split; [done|].
  intros j size Hsize Hred.
  assert (Hj : (j < length (tensor_shape tensor))%nat)
    by (by eapply lookup_lt_Some).
  rewrite (Hslots j Hj), decide_True by done.
  assert (Hpos : real_axes !! reduced_between real_axes 0 j =
                 Some (Z.of_nat j)).
  { apply sorted_axis_position; [done| |done].
    eapply Forall_impl; [exact Hrange|]. simpl. lia. }
  destruct (Forall2_lookup_l _ _ _ _ _ Hvars Hpos) as (v & Hv & _ & Hbound).
  rewrite Nat2Z.id in Hbound. fold shape in Hbound.
  exists v. rewrite Hv. split_and!; [done| |congruence].
  by eapply list_elem_of_lookup_2.
Qed.

Lemma DoReduce_variable_ranges_witness :
  let A := placeholder "A" [2; 3; 4] in
  let fn := fold_call "reduce_sum" in
  ∃ C names' reduce_axes compute,
    DoReduce (H := counter_collaborators) A fn
      [Const (Int 32) 2; Const (Int 32) 1] [1; 2] [] (Const (Float 32) 0) "C"
      0%nat = OK (C, names') ∧
    tensor_fn C = Some compute ∧
    ∀ indices e,
      compute indices = OK e →
      ∃ eval_indice,
        e = fn (Tensor_call A eval_indice) reduce_axes (Const (Float 32) 0) ∧
        ∀ j size,
          tensor_shape A !! j = Some size →
          reduced [1; 2] j →
          ∃ v, eval_indice !! j = Some (Var_expr v) ∧
               v ∈ reduce_axes ∧
               var_upper_bound v = size.
Proof.
  intros A fn. eexists _, _.
  edestruct (DoReduce_variable_ranges (H := counter_collaborators)
               A fn [Const (Int 32) 2; Const (Int 32) 1] [1; 2] []
               (Const (Float 32) 0) "C" 0%nat)
    as (reduce_axes & compute & Hfn & Hslots).
  - vm_compute. reflexivity.
  - repeat constructor; lia.
  - constructor.
  - reflexivity.
  - exists reduce_axes, compute.
    split_and!; [reflexivity|exact Hfn|exact Hslots].
Defined.

(** ** Facade: the elements of the result *)

Lemma GetRealAxes_OK_valid ndim axes real_axes :
  0 < ndim → is_int ndim → Forall is_int axes →
  GetRealAxes ndim axes [] = OK real_axes →
  Forall (λ a, 0 ≤ python_index ndim a ≤ ndim) axes.
Proof.
  intros Hpos Hndim Hint Hrun.
  destruct (decide (Forall (λ a, 0 ≤ python_index ndim a ≤ ndim) axes))
    as [|Hinvalid]; [done|].
  apply not_Forall_Exists in Hinvalid; [|intros a; apply _].
  assert (Hbad : Exists (λ a, python_index ndim a < 0 ∨
                              ndim < python_index ndim a) axes).
  { eapply Exists_impl; [exact Hinvalid|]. intros a Ha. simpl in *. lia. }
  destruct axes as [|a axes]; [by apply Exists_nil in Hbad|].
  unfold GetRealAxes in Hrun.
  by rewrite (push_axes_invalid ndim Hpos Hndim _ _ Hint Hbad) in Hrun.
Qed.

Section Reduce_elements.
Context `{Collaborators}.
Variables (tensor : Tensor) (axes : list Z).
Variables (fn : Expr → list Var → Expr → Expr) (keep_dims : bool).
Variables (initial : Expr) (output_name : string).
Variables (names : NameGen) (C : Tensor) (names' : NameGen).
Let shape := tensor_shape tensor.
Let ndim := length shape.
Let reduced_dims := reduction_axes (Z.of_nat ndim) axes.

Hypothesis rank_fits_int : Z.of_nat ndim < 2 ^ 31.
Hypothesis axes_int : Forall is_int axes.
Hypothesis built :
  Reduce tensor axes fn keep_dims initial output_name names = OK (C, names').

(** The steps of a successful run, with the axes it reduced over. *)
Lemma Reduce_built :
  ∃ real_axes reduce_axes,
    (∀ x, x ∈ real_axes ↔ x ∈ reduced_dims) ∧
    Forall (λ a, 0 ≤ a < Z.of_nat ndim) real_axes ∧
    GetOutputShape real_axes [] tensor keep_dims = OK (tensor_shape C) ∧
    tensor_fn C =
      Some (DoReduce_compute tensor fn real_axes
              (if keep_dims then [] else real_axes) initial reduce_axes) ∧
    Forall2 (λ axis v, 0 ≤ axis ∧
               shape !! Z.to_nat axis = Some (var_upper_bound v))
      real_axes reduce_axes.
Proof.
  apply Reduce_steps in built
    as (Hpos & real_axes & output_shapes & Haxes & Hshape & Hdo).
  unfold reduced_dims, ndim, shape in *.
  assert (Hint : is_int (Z.of_nat (length (tensor_shape tensor))))
    by (unfold is_int; lia).
  assert (Hpos' : 0 < Z.of_nat (length (tensor_shape tensor))) by lia.
  rewrite (to_int_id _ Hint) in Haxes.
  pose proof (GetRealAxes_OK_valid _ _ _ Hpos' Hint axes_int Haxes)
    as Hvalid.
  destruct (GetRealAxes_valid_result _ axes Hpos' Hint axes_int Hvalid)
    as (real_axes' & Haxes' & Hmem).
  rewrite Haxes in Haxes'. injection Haxes' as <-.
  destruct (DoReduce_built _ _ _ _ _ _ _ _ _ _ Hdo)
    as (reduce_axes & Hfn & Hvars).
  apply DoReduce_element in Hdo as [-> _].
  exists real_axes, reduce_axes.
  split_and!; [done| |done..].
  by eapply built_axes_in_range.
Qed.

End Reduce_elements.

(** X11: every element of a tensor returned by the facade is defined: on any
    output index tuple with one entry per dimension of the result's shape,
    the compute function returns an expression. *)
Theorem Reduce_elements_defined `{Collaborators} tensor axes fn keep_dims
    initial output_name names C names' :
  Z.of_nat (length (tensor_shape tensor)) < 2 ^ 31 →
  Forall is_int axes →
  Reduce tensor axes fn keep_dims initial output_name names = OK (C, names') →
  ∃ compute,
    tensor_fn C = Some compute ∧
    ∀ indices,
      length indices = length (tensor_shape C) →
      ∃ e, compute indices = OK e.
Proof.
  intros Hrank Hint Hbuilt.
  destruct (Reduce_built _ _ _ _ _ _ _ _ _ Hrank Hint Hbuilt)
    as (real_axes & reduce_axes & Hmem & Hrange & Hshape & Hfn & Hvars).
  eexists. split; [exact Hfn|]. intros indices Hlen.
  assert (Hsqueeze : Forall is_int (if keep_dims then [] else real_axes)).
  { destruct keep_dims; [constructor|].
    eapply Forall_impl; [exact Hrange|]. unfold is_int. simpl. lia. }
  apply DoReduce_compute_defined; [done..|].
  rewrite Hlen. rewrite GetOutputShape_eq in Hshape.
  injection Hshape as <-. simpl. destruct keep_dims.
  - rewrite passed_between_no_squeeze.
    rewrite (keep_dims_entries tensor real_axes Hrank Hrange).
    assert (Hkeep : length (keep_dims_shape real_axes (tensor_shape tensor)) =
                    length (tensor_shape tensor)) by apply length_imap.
    destruct (keep_dims_shape real_axes (tensor_shape tensor));
      simpl in *; lia.
  - rewrite (squeezed_entries tensor real_axes Hrank Hrange).
    pose proof (passed_between_squeeze_reduced real_axes
                  (length (tensor_shape tensor))) as Hcount.
    pose proof (length_non_reduced_sizes tensor real_axes Hrange) as Hkept.
    rewrite <- (reduced_between_all real_axes _ Hrange) in Hkept.
    destruct (non_reduced_sizes real_axes (tensor_shape tensor));
      simpl in *; lia.
Qed.

Lemma Reduce_elements_defined_witness :
  ∃ C names' compute,
    ReduceMin (H := counter_collaborators) (placeholder "A" [2; 3; 4]) [-1; 0]
      false Undefined "C" 0%nat = OK (C, names') ∧
    tensor_fn C = Some compute ∧
    ∀ indices,
      length indices = length (tensor_shape C) →
      ∃ e, compute indices = OK e.
Proof.
  eexists _, _.
  edestruct (Reduce_elements_defined (H := counter_collaborators)
               (placeholder "A" [2; 3; 4]) [-1; 0]
               (fold_call "reduce_min") false Undefined "C" 0%nat)
    as (compute & Hfn & Hdefined).
  - vm_compute. reflexivity.
  - repeat constructor; vm_compute; congruence.
  - reflexivity.
  - exists compute. split_and!; [reflexivity|exact Hfn|exact Hdefined].
Defined.

(** X12: in every element of a tensor returned by the facade, the input is
    indexed by one slot per input dimension: a reduced dimension is indexed
    by a reduction variable, and a dimension [j] that is not reduced by the
    output index at position [j] when dimensions are kept, and at position
    [j] minus the number of reduced dimensions before [j] when they are
    not. *)
Theorem Reduce_element_indexing `{Collaborators} tensor axes fn keep_dims
    initial output_name names C names' :
  let ndim := length (tensor_shape tensor) in
  let reduced_dims := reduction_axes (Z.of_nat ndim) axes in
  Z.of_nat ndim < 2 ^ 31 →
  Forall is_int axes →
  Reduce tensor axes fn keep_dims initial output_name names = OK (C, names') →
  ∃ reduce_axes compute,
    tensor_fn C = Some compute ∧
    ∀ indices e,
      compute indices = OK e →
      ∃ eval_indice,
        e = fn (Tensor_call tensor eval_indice) reduce_axes initial ∧
        length eval_indice = ndim ∧
        ∀ j, (j < ndim)%nat →
          if decide (reduced reduced_dims j)
          then ∃ v, eval_indice !! j = Some (Var_expr v) ∧ v ∈ reduce_axes
          else eval_indice !! j =
                 indices !! (if keep_dims then j
                             else j - reduced_between reduced_dims 0 j)%nat.
Proof.
  intros ndim reduced_dims Hrank Hint Hbuilt. subst ndim reduced_dims.
  destruct (Reduce_built _ _ _ _ _ _ _ _ _ Hrank Hint Hbuilt)
    as (real_axes & reduce_axes & Hmem & Hrange & Hshape & Hfn & Hvars).
  exists reduce_axes. eexists. split; [exact Hfn|]. intros indices e He.
  assert (Hreal : Forall is_int real_axes).
  { eapply Forall_impl; [exact Hrange|]. unfold is_int. simpl. lia. }
  assert (Hsqueeze : Forall is_int (if keep_dims then [] else real_axes))
    by (by destruct keep_dims; [constructor|]).
  destruct (DoReduce_compute_slots _ _ _ _ _ Hrank Hsqueeze _ _ _ Hreal He)
    as (eval_indice & -> & Hlen & Hslots).
  exists eval_indice. split_and!; [done..|]. intros j Hj.
  specialize (Hslots j Hj).
  destruct (decide (reduced (reduction_axes _ axes) j)) as [Hred|Hred].
  - rewrite decide_True in Hslots by (by apply Hmem).
    destruct (lookup_lt_is_Some_2 eval_indice j) as [x Hx]; [lia|].
    rewrite Hx in Hslots.
    destruct (reduce_axes !! _) as [v|] eqn:Hv; [|done].
    exists v. rewrite Hx, Hslots. split; [done|].
    by eapply list_elem_of_lookup_2.
  - rewrite decide_False in Hslots by (intros Hr; by apply Hmem in Hr).
    rewrite Hslots. f_equal. destruct keep_dims.
    + apply passed_between_no_squeeze.
    + rewrite <- (reduced_between_ext _ _ 0 j Hmem).
      pose proof (passed_between_squeeze_reduced real_axes j). lia.
Qed.

Lemma Reduce_element_indexing_witness :
  let A := placeholder "A" [2; 3; 4] in
  let reduced_dims := reduction_axes 3 [1] in
  ∃ C names' reduce_axes compute,
    ReduceProd (H := counter_collaborators) A [1] false Undefined "C" 0%nat =
      OK (C, names') ∧
    tensor_fn C = Some compute ∧
    ∀ indices e,
      compute indices = OK e →
      ∃ eval_indice,
        e = fold_call "reduce_mul" (Tensor_call A eval_indice) reduce_axes
              (Const (Float 32) 1) ∧
        length eval_indice = 3%nat ∧
        ∀ j, (j < 3)%nat →
          if decide (reduced reduced_dims j)
          then ∃ v, eval_indice !! j = Some (Var_expr v) ∧ v ∈ reduce_axes
          else eval_indice !! j =
                 indices !! (j - reduced_between reduced_dims 0 j)%nat.
Proof.
  intros A reduced_dims. eexists _, _.
  edestruct (Reduce_element_indexing (H := counter_collaborators) A [1]
               (fold_call "reduce_mul") false (Const (Float 32) 1) "C" 0%nat)
    as (reduce_axes & compute & Hfn & Hslots).
  - vm_compute. reflexivity.
  - repeat constructor; vm_compute; congruence.
  - reflexivity.
  - exists reduce_axes, compute.
    split_and!; [reflexivity|exact Hfn|exact Hslots].
Defined.

(** ** Warp builder: the requests it rejects *)

Lemma as_int32_failure e err : as_int32 e = Error err → err = NonConstantWarpDimension.
Proof. unfold as_int32. repeat case_match; congruence. Qed.

Lemma as_int32_OK e v : as_int32 e = OK v → e = Const (Int 32) v.
Proof. unfold as_int32. repeat case_match; congruence. Qed.

(** From the last dimension down, the loop stops at the first size that is
    not a constant. *)
Lemma lane_loop_non_constant shape (b n : nat) lane :
  Z.of_nat (length shape) < 2 ^ 31 →
  (b + n ≤ length shape)%nat →
  Exists (λ e, ∀ v, e ≠ Const (Int 32) v) (take n (drop b shape)) →
  lane_loop shape (Z.of_nat b) (Z.of_nat (b + n) - 1) lane =
    Error NonConstantWarpDimension.
Proof.
  intros Hrank. revert lane.
  induction n as [|n IH]; intros lane Hlen Hbad.
  - by apply Exists_nil in Hbad.
  - rewrite lane_loop_step, to_size_t_id by lia.
    destruct (Z.geb_spec (Z.of_nat (b + S n) - 1) (Z.of_nat b)); [|lia].
    destruct (lookup_lt_is_Some_2 (drop b shape) n) as [x Hx];
      [rewrite length_drop; lia|].
    rewrite (take_S_r _ _ _ Hx) in Hbad.
    rewrite lookup_drop in Hx.
    unfold vec_at_int, vec_at.
    destruct (Z.ltb_spec (Z.of_nat (b + S n) - 1) 0); [lia|].
    replace (Z.to_nat (Z.of_nat (b + S n) - 1)) with (b + n)%nat by lia.
    rewrite Hx. simpl.
    destruct (as_int32 x) as [v|err] eqn:Hconst.
    + replace (Z.of_nat (b + S n) - 1 - 1) with (Z.of_nat (b + n) - 1)
        by lia.
      apply IH; [lia|].
      apply Exists_app in Hbad as [Hbad|Hbad]; [done|].
      apply Exists_cons in Hbad as [Hbad|Hbad]; [|by apply Exists_nil in Hbad].
      apply as_int32_OK in Hconst. by destruct (Hbad v).
    + f_equal. by eapply as_int32_failure.
Qed.

(** X16: asked to reduce a negative number of trailing dimensions, or more
    dimensions than the tensor has, the warp builder fails on an access
    outside the shape. *)
Theorem WarpReduce_out_of_range_request `{Collaborators} A last_reduce_dim_num
    reduce_type output_name names :
  let rank := Z.of_nat (length (tensor_shape A)) in
  rank < 2 ^ 31 →
  is_int last_reduce_dim_num →
  last_reduce_dim_num < 0 ∨ rank < last_reduce_dim_num →
  WarpReduce A last_reduce_dim_num reduce_type output_name names =
    Error OutOfRange.
Proof.
  intros rank Hrank Hint Hk. subst rank. unfold WarpReduce.
  rewrite (first_lane_index A Hrank).
  set (size := Z.of_nat (length (tensor_shape A))) in *.
  rewrite lane_loop_step.
  assert (Hprefix : vec_prefix (tensor_shape A) (size - last_reduce_dim_num) =
                    Error OutOfRange).
  { unfold vec_prefix. fold size. by rewrite bool_decide_eq_false_2 by lia. }
  destruct (decide (size = 0)) as [Hzero|Hpos].
  - destruct (to_size_t (size - 1) >=? _); [|simpl; by rewrite Hprefix].
    unfold vec_at_int.
    by destruct (Z.ltb_spec (size - 1) 0); [|lia].
  - assert (Hexit : (to_size_t (size - 1) >=?
                     to_size_t (size - last_reduce_dim_num)) = false).
    { rewrite (to_size_t_id (size - 1)) by lia.
      rewrite Z.geb_leb. apply Z.leb_gt. unfold is_int in Hint.
      destruct Hk as [Hneg|Hbig].
      - rewrite to_size_t_id by lia. lia.
      - unfold to_size_t.
        replace (size - last_reduce_dim_num)
          with (size - last_reduce_dim_num + 2 ^ 64 + (-1) * 2 ^ 64) by lia.
        rewrite Z.mod_add by lia. rewrite Z.mod_small by lia. lia. }
    rewrite Hexit. simpl. by rewrite Hprefix.
Qed.

Lemma WarpReduce_out_of_range_request_witness :
  WarpReduceSum (H := counter_collaborators) (placeholder "A" [8; 64]) 3
    "out" 0%nat = Error OutOfRange ∧
  WarpReduceSum (H := counter_collaborators) (placeholder "A" [8; 64]) (-1)
    "out" 0%nat = Error OutOfRange.
Proof.
  split.
  - apply (WarpReduce_out_of_range_request (H := counter_collaborators)
             (placeholder "A" [8; 64]) 3).
    + vm_compute. reflexivity.
    + vm_compute. intuition congruence.
    + right. vm_compute. reflexivity.
  - apply (WarpReduce_out_of_range_request (H := counter_collaborators)
             (placeholder "A" [8; 64]) (-1)).
    + vm_compute. reflexivity.
    + vm_compute. intuition congruence.
    + left. vm_compute. reflexivity.
Defined.

(** X17: asked to reduce trailing dimensions one of whose sizes is not an
    integer constant, the warp builder fails with
    [NonConstantWarpDimension]. *)
Theorem WarpReduce_non_constant_dimension `{Collaborators} A
    last_reduce_dim_num reduce_type output_name names :
  let shape := tensor_shape A in
  let rank := length shape in
  Z.of_nat rank < 2 ^ 31 →
  0 ≤ last_reduce_dim_num ≤ Z.of_nat rank →
  Exists (λ e, ∀ v, e ≠ Const (Int 32) v)
    (drop (rank - Z.to_nat last_reduce_dim_num) shape) →
  WarpReduce A last_reduce_dim_num reduce_type output_name names =
    Error NonConstantWarpDimension.
Proof.
  intros shape rank Hrank Hk Hbad. subst rank shape. unfold WarpReduce.
  rewrite (first_lane_index A Hrank), to_size_t_id by lia.
  set (k := Z.to_nat last_reduce_dim_num) in *.
  set (rank := length (tensor_shape A)) in *.
  replace (Z.of_nat rank - last_reduce_dim_num)
    with (Z.of_nat (rank - k)) by lia.
  replace (Z.of_nat rank - 1) with (Z.of_nat (rank - k + k) - 1) by lia.
  rewrite lane_loop_non_constant; [done|done|fold rank; lia|].
  rewrite take_ge; [done|]. rewrite length_drop. fold rank. lia.
Qed.

Lemma WarpReduce_non_constant_dimension_witness :
  let A := {| tensor_name := "A";
              tensor_shape := [Const (Int 32) 8; Var_ "n" Undefined];
              tensor_fn := None |} in
  WarpReduceMax (H := counter_collaborators) A 1 "out" 0%nat =
    Error NonConstantWarpDimension.
Proof.
  intros A.
  apply (WarpReduce_non_constant_dimension (H := counter_collaborators) A 1).
  - vm_compute. reflexivity.
  - vm_compute. split; congruence.
  - vm_compute. constructor. intros v. congruence.
Defined.

(** X18: the function that computes the elements of [tmp_out] rejects an index
    tuple of the wrong length: the empty tuple has no prefix to take, and any
    other tuple whose entries but the last, with one more per reduced
    dimension, are not as many as the tensor has dimensions fails the size
    check. *)
Theorem WarpReduce_tmp_compute_arity A last_reduce_dim_num reduce_type lane
    indexs :
  let rank := length (tensor_shape A) in
  let k := Z.to_nat last_reduce_dim_num in
  (indexs = [] →
   WarpReduce_tmp_compute A last_reduce_dim_num reduce_type lane indexs =
     Error OutOfRange) ∧
  (indexs ≠ [] → (length indexs - 1 + k)%nat ≠ rank →
   WarpReduce_tmp_compute A last_reduce_dim_num reduce_type lane indexs =
     Error ShapeMismatch) ∧
  (indexs ≠ [] → (length indexs - 1 + k)%nat = rank →
   ∃ e, WarpReduce_tmp_compute A last_reduce_dim_num reduce_type lane indexs =
          OK e).
Proof.
  intros rank k.
  assert (Hsnoc : ∀ leading x,
    WarpReduce_tmp_compute A last_reduce_dim_num reduce_type lane
      (leading ++ [x]) =
    if negb (rank =? length leading + k)%nat then Error ShapeMismatch
    else OK (CallExtern reduce_type
               [Tensor_expr A;
                IndiceToAbsOffset (tensor_shape A)
                  (leading ++ replicate k (Const (Int 32) 0));
                lane])).
  { intros leading x. unfold WarpReduce_tmp_compute, vec_prefix.
    rewrite length_app. simpl.
    rewrite bool_decide_eq_true_2 by lia.
    replace (Z.to_nat (Z.of_nat (length leading + 1) - 1))
      with (length leading) by lia.
    rewrite take_app_length. simpl. rewrite for_int_push. simpl.
    by rewrite length_app, length_replicate. }
  split_and!.
  - by intros ->.
  - intros Hne Hlen.
    destruct indexs as [|x leading _] using rev_ind; [done|].
    rewrite Hsnoc. rewrite length_app in Hlen. simpl in Hlen.
    destruct (Nat.eqb_spec rank (length leading + k)); [lia|done].
  - intros Hne Hlen.
    destruct indexs as [|x leading _] using rev_ind; [done|].
    rewrite Hsnoc. rewrite length_app in Hlen. simpl in Hlen.
    destruct (Nat.eqb_spec rank (length leading + k)); [simpl; eauto|lia].
Qed.

Lemma WarpReduce_tmp_compute_arity_witness :
  let A := placeholder "A" [8; 64] in
  let i := Var_ "i" Undefined in
  WarpReduce_tmp_compute A 1 "cinn_warp_reduce_sum" (Const (Int 32) 64) [i] =
    Error ShapeMismatch.
Proof.
  intros A i.
  apply (WarpReduce_tmp_compute_arity A 1 "cinn_warp_reduce_sum"
           (Const (Int 32) 64) [i]).
  - done.
  - vm_compute. congruence.
Defined.

(** ** Warp builder: the three named wrappers *)

Lemma WarpReduce_emits `{Collaborators} A k reduce_type output_name names
    sizes :
  Z.of_nat (length (tensor_shape A)) < 2 ^ 31 →
  0 ≤ k < Z.of_nat (length (tensor_shape A)) →
  drop (length (tensor_shape A) - Z.to_nat k) (tensor_shape A) =
    Const (Int 32) <$> sizes →
  emits_calls_to (λ A k, WarpReduce A k reduce_type) reduce_type A k
    output_name names (lane_product (Const (Int 32) 1) sizes).
Proof.
  intros Hrank Hk Hsizes.
  destruct (WarpReduce_valid A k reduce_type output_name Hrank names sizes)
    as (tmp_name & out_name & names' & Hrun); [done..|].
  simpl in Hrun. unfold emits_calls_to.
  eexists _, _, names', _. split_and!; [exact Hrun|done..|].
  intros leading x Hlen. apply tmp_compute_leading; [lia|].
  rewrite Hlen, length_take. lia.
Qed.

(** X19: on a tensor whose last [k] sizes are integer constants, with
    [0 ≤ k < rank], the three named wrappers return tensors of the same
    shapes whose [tmp_out] elements are calls on the same tensor, offset and
    lane count, of [cinn_warp_reduce_max], [cinn_warp_reduce_sum] and
    [cinn_warp_reduce_avg] respectively. *)
Theorem WarpReduce_wrappers `{Collaborators} A k output_name names sizes :
  let shape := tensor_shape A in
  let rank := length shape in
  Z.of_nat rank < 2 ^ 31 →
  0 ≤ k < Z.of_nat rank →
  drop (rank - Z.to_nat k) shape = Const (Int 32) <$> sizes →
  ∃ lane,
    emits_calls_to WarpReduceMax "cinn_warp_reduce_max" A k output_name names
      lane ∧
    emits_calls_to WarpReduceSum "cinn_warp_reduce_sum" A k output_name names
      lane ∧
    emits_calls_to WarpReduceAvg "cinn_warp_reduce_avg" A k output_name names
      lane.
Proof.
  intros shape rank Hrank Hk Hsizes.
  exists (lane_product (Const (Int 32) 1) sizes).
  split_and!.
  - by apply (WarpReduce_emits A k "cinn_warp_reduce_max").
  - by apply (WarpReduce_emits A k "cinn_warp_reduce_sum").
  - by apply (WarpReduce_emits A k "cinn_warp_reduce_avg").
Qed.

Lemma WarpReduce_wrappers_witness :
  let A := placeholder "A" [4; 8; 16] in
  ∃ lane,
    emits_calls_to (H := counter_collaborators) WarpReduceMax
      "cinn_warp_reduce_max" A 2 "out" 0%nat lane ∧
    emits_calls_to (H := counter_collaborators) WarpReduceSum
      "cinn_warp_reduce_sum" A 2 "out" 0%nat lane ∧
    emits_calls_to (H := counter_collaborators) WarpReduceAvg
      "cinn_warp_reduce_avg" A 2 "out" 0%nat lane.
Proof.
  intros A.
  apply (WarpReduce_wrappers (H := counter_collaborators) A 2 "out" 0%nat
           [8; 16]).
  - vm_compute. reflexivity.
  - vm_compute. split; congruence.
  - reflexivity.
Defined.

(** ** Facade: no axes means all axes *)

Lemma seqZ_strictly_sorted m len : StronglySorted Z.lt (seqZ m len).
Proof.
  unfold seqZ. generalize 0%nat.
  induction (Z.to_nat len) as [|n IH]; intros a; [constructor|].
  csimpl. constructor; [apply IH|].
  apply Forall_fmap, Forall_forall. intros j Hj. apply elem_of_seq in Hj.
  simpl. lia.
Qed.

(** X10: on a tensor of positive rank, the facade run with no axes does the
    same as the facade run with every axis, [0, 1, ..., ndim - 1]: the same
    tensor and the same names drawn, or the same failure. *)
Theorem Reduce_empty_axes_all_dimensions `{Collaborators} tensor fn keep_dims
    initial output_name names :
  let ndim := Z.of_nat (length (tensor_shape tensor)) in
  0 < ndim → ndim < 2 ^ 31 →
  Reduce tensor [] fn keep_dims initial output_name names =
  Reduce tensor (seqZ 0 ndim) fn keep_dims initial output_name names.
Proof.
  intros ndim Hpos Hrank. subst ndim. unfold Reduce.
  set (ndim := Z.of_nat (length (tensor_shape tensor))) in *.
  assert (Hint : is_int ndim) by (unfold is_int; lia).
  rewrite (to_int_id _ Hint), GetRealAxes_empty.
  rewrite GetRealAxes_increasing_id; [done|done|done| | |].
  - intros Hnil. apply (f_equal length) in Hnil.
    rewrite length_seqZ in Hnil. simpl in Hnil. lia.
  - apply Forall_forall. intros x Hx. apply elem_of_seqZ in Hx. lia.
  - apply seqZ_strictly_sorted.
Qed.

Lemma Reduce_empty_axes_all_dimensions_witness :
  let A := placeholder "A" [2; 3; 4] in
  ReduceSum (H := counter_collaborators) A [] true Undefined "C" 0%nat =
  ReduceSum (H := counter_collaborators) A [0; 1; 2] true Undefined "C" 0%nat.
Proof.
  intros A.
  apply (Reduce_empty_axes_all_dimensions (H := counter_collaborators) A
           (fold_call "reduce_sum") true (Const (Float 32) 0) "C" 0%nat).
  - vm_compute. reflexivity.
  - vm_compute. reflexivity.
Defined.

(** ** Builder: what a repeated axis does *)

Lemma size_list_to_set_lt (l : list Z) :
  ¬ NoDup l → (size (list_to_set l : gset Z) < length l)%nat.
Proof.
  induction l as [|a l IH]; intros Hdup; [by destruct Hdup; constructor|].
  rewrite list_to_set_cons. simpl.
  destruct (decide (a ∈ l)) as [Hin|Hnotin].
  - rewrite (subseteq_union_1_L {[a]} (list_to_set l)).
    + pose proof (size_list_to_set_le l). lia.
    + apply singleton_subseteq_l. by apply elem_of_list_to_set.
  - rewrite size_union_alt, size_singleton.
    pose proof (subseteq_size (list_to_set l ∖ {[a]})
                  (list_to_set l : gset Z)) as Hsub.
    assert (list_to_set l ∖ {[a]} ⊆ (list_to_set l : gset Z)) as Hincl
      by (intros x Hx; by apply elem_of_difference in Hx as [? _]).
    specialize (Hsub Hincl).
    assert (¬ NoDup l) as Hdup' by (intros Hl; apply Hdup; by constructor).
    specialize (IH Hdup'). lia.
Qed.

Lemma reduced_between_split real_axes i j n :
  (i ≤ j ≤ n)%nat →
  reduced_between real_axes i n =
  (reduced_between real_axes i j + reduced_between real_axes j n)%nat.
Proof.
  intros Hj. unfold reduced_between.
  replace (n - i)%nat with ((j - i) + (n - j))%nat by lia.
  rewrite seq_app, filter_app, length_app.
  by replace (i + (j - i))%nat with j by lia.
Qed.

(** X15: when an axis occurs twice in the list given to [DoReduce], the
    builder makes more reduction variables than it uses: every slot of a
    reduced dimension holds one of the first variables, as many as there are
    reduced dimensions, while all the variables, which are more, are passed to
    the accumulation function as the domain of the fold. *)
Theorem DoReduce_repeated_axis `{Collaborators} tensor fn output_shape
    real_axes squeeze_axes initial output_name names C names' :
  let ndim := length (tensor_shape tensor) in
  Z.of_nat ndim < 2 ^ 31 →
  ¬ NoDup real_axes →
  Forall is_int squeeze_axes →
  DoReduce tensor fn output_shape real_axes squeeze_axes initial output_name
    names = OK (C, names') →
  ∃ reduce_axes compute,
    tensor_fn C = Some compute ∧
    (reduced_between real_axes 0 ndim < length reduce_axes)%nat ∧
    ∀ indices e,
      compute indices = OK e →
      ∃ eval_indice,
        e = fn (Tensor_call tensor eval_indice) reduce_axes initial ∧
        ∀ j, (j < ndim)%nat → reduced real_axes j →
          ∃ k v, (k < reduced_between real_axes 0 ndim)%nat ∧
                 reduce_axes !! k = Some v ∧
                 eval_indice !! j = Some (Var_expr v).
Proof.
  intros ndim Hrank Hdup Hsqueeze Hbuilt. subst ndim.
  destruct (DoReduce_built _ _ _ _ _ _ _ _ _ _ Hbuilt)
    as (reduce_axes & Hfn & Hvars).
  pose proof (built_axes_in_range _ _ _ Hvars) as Hrange.
  pose proof (built_axes_int _ _ Hrank _ Hvars) as Hint.
  exists reduce_axes. eexists. split_and!; [exact Hfn| |].
  - rewrite (reduced_between_all _ _ Hrange).
    rewrite <- (Forall2_length _ _ _ Hvars).
    by apply size_list_to_set_lt.
  - intros indices e He.
    destruct (DoReduce_compute_slots _ _ _ _ _ Hrank Hsqueeze _ _ _ Hint He)
      as (eval_indice & -> & Hlen & Hslots).
    exists eval_indice. split; [done|]. intros j Hj Hred.
    specialize (Hslots j Hj). rewrite decide_True in Hslots by done.
    destruct (lookup_lt_is_Some_2 eval_indice j) as [x Hx]; [lia|].
    rewrite Hx in Hslots.
    destruct (reduce_axes !! _) as [v|] eqn:Hv; [|done].
    exists (reduced_between real_axes 0 j), v.
    split_and!; [|done|by rewrite Hx, Hslots].
    rewrite (reduced_between_split real_axes 0 j (length (tensor_shape tensor)))
      by lia.
    rewrite (reduced_between_step real_axes j) by lia.
    rewrite decide_True by done. lia.
Qed.

Lemma DoReduce_repeated_axis_witness :
  let A := placeholder "A" [2; 3; 4] in
  let fn := fold_call "reduce_sum" in
  ∃ C names' (reduce_axes : list Var) compute,
    DoReduce (H := counter_collaborators) A fn [Const (Int 32) 2] [1; 1; 2]
      [1; 1; 2] (Const (Float 32) 0) "C" 0%nat = OK (C, names') ∧
    tensor_fn C = Some compute ∧
    (reduced_between [1%Z; 1%Z; 2%Z] 0 3 < length reduce_axes)%nat.
Proof.
  intros A fn. eexists _, _.
  edestruct (DoReduce_repeated_axis (H := counter_collaborators) A fn
               [Const (Int 32) 2] [1; 1; 2] [1; 1; 2] (Const (Float 32) 0)
               "C" 0%nat)
    as (reduce_axes & compute & Hfn & Hmore & _).
  - vm_compute. reflexivity.
  - intros Hnd. apply NoDup_cons in Hnd as [Hnotin _]. apply Hnotin. left.
  - repeat constructor; vm_compute; congruence.
  - reflexivity.
  - exists reduce_axes, compute. split_and!; [reflexivity|exact Hfn|exact Hmore].
Defined.

(** ** Further invariants of the normaliser and the shape deriver *)

Lemma Reduce_failures_witness :
  ReduceSum (H := counter_collaborators) (placeholder "A" []) [0] false
    Undefined "C" 0%nat = Error InvalidRank.
Proof.
  apply (Reduce_failures (H := counter_collaborators) (placeholder "A" []) [0]).
  reflexivity.
Defined.

(** X5: whatever the request, a list returned by the normaliser for a positive
    [ndim] is non-empty, in non-decreasing order, and made of values between
    0 and [ndim], the bound included. *)
Theorem GetRealAxes_result_invariants ndim axes real_axes :
  0 < ndim → is_int ndim → Forall is_int axes →
  GetRealAxes ndim axes [] = OK real_axes →
  real_axes ≠ [] ∧
  Sorted Z.le real_axes ∧
  Forall (λ a, 0 ≤ a ≤ ndim) real_axes.
Proof.
  intros Hpos Hndim Hint Hrun.
  pose proof (GetRealAxes_OK_valid _ _ _ Hpos Hndim Hint Hrun) as Hvalid.
  destruct axes as [|a0 axes0].
  - rewrite GetRealAxes_empty in Hrun. injection Hrun as <-. simpl.
    split_and!.
    + intros Hnil. apply (f_equal length) in Hnil.
      rewrite length_seqZ in Hnil. simpl in Hnil. lia.
    + apply StronglySorted_Sorted, StronglySorted_lt_le, seqZ_strictly_sorted.
    + apply Forall_forall. intros x Hx. apply elem_of_seqZ in Hx. lia.
  - unfold GetRealAxes in Hrun. rewrite push_axes_valid in Hrun by done.
    rewrite app_nil_l in Hrun.
    set (adjusted := python_index ndim <$> a0 :: axes0) in *.
    assert (Hreal : real_axes = sort (unique adjusted))
      by (by injection Hrun as <-).
    assert (Hmem : ∀ x, x ∈ real_axes ↔ x ∈ adjusted).
    { intros x. rewrite Hreal. unfold sort. rewrite merge_sort_Permutation.
      apply elem_of_unique. }
    split_and!.
    + intros Hnil. specialize (Hmem (python_index ndim a0)).
      rewrite Hnil in Hmem. apply (elem_of_nil (python_index ndim a0)).
      apply Hmem. left.
    + rewrite Hreal. apply (Sorted_merge_sort Z.le).
    + apply Forall_forall. intros x Hx. apply Hmem in Hx.
      apply list_elem_of_fmap in Hx as (a & -> & Ha).
      by apply (proj1 (Forall_forall _ _) Hvalid).
Qed.

Lemma GetRealAxes_result_invariants_witness :
  [2; 3] ≠ [] ∧ Sorted Z.le [2; 3] ∧ Forall (λ a, 0 ≤ a ≤ 3) [2; 3].
Proof.
  apply (GetRealAxes_result_invariants 3 [3; -1] [2; 3]).
  - lia.
  - vm_compute. intuition congruence.
  - repeat constructor; vm_compute; congruence.
  - vm_compute. reflexivity.
Defined.

(** X6: the shape deriver looks only at the axes that index a dimension: an
    axis outside the shape, such as the rank itself, changes nothing in the
    derived shape. *)
Theorem GetOutputShape_ignores_outside_axes real_axes tensor keep_dims :
  let ndim := Z.of_nat (length (tensor_shape tensor)) in
  ndim < 2 ^ 31 →
  Forall is_int real_axes →
  GetOutputShape real_axes [] tensor keep_dims =
  GetOutputShape (filter (λ a, 0 ≤ a < ndim) real_axes) [] tensor keep_dims.
Proof.
  intros ndim Hrank Hint. subst ndim. rewrite !GetOutputShape_eq.
  erewrite imap_ext; [reflexivity|]. intros i size Hi.
  apply lookup_lt_Some in Hi. simpl.
  assert (Hint' : Forall is_int
            (filter (λ a, 0 ≤ a < Z.of_nat (length (tensor_shape tensor)))
               real_axes)).
  { apply Forall_forall. intros x Hx. apply list_elem_of_filter in Hx as [_ Hx].
    by apply (proj1 (Forall_forall _ _) Hint). }
  rewrite !contains_reduced by (done || lia).
  assert (Hiff : reduced real_axes i ↔
                 reduced (filter (λ a, 0 ≤ a <
                            Z.of_nat (length (tensor_shape tensor)))
                            real_axes) i).
  { unfold reduced. rewrite list_elem_of_filter. split; [|tauto].
    intros Hin. split; [lia|done]. }
  by rewrite (bool_decide_ext _ _ Hiff).
Qed.

Lemma GetOutputShape_ignores_outside_axes_witness :
  let A := placeholder "A" [2; 3; 4] in
  GetOutputShape [1; 3] [] A false =
  GetOutputShape (filter (λ a, 0 ≤ a < 3) [1; 3]) [] A false.
Proof.
  intros A. apply (GetOutputShape_ignores_outside_axes [1; 3] A false).
  - vm_compute. reflexivity.
  - repeat constructor; vm_compute; congruence.
Defined.
